(** * TSP: exhaustive search against the nearest-neighbour heuristic

    Shallow embedding of the Python sources
      - [src/distance_calculator.py]
      - [src/exhaustive_search.py]
      - [src/nearest_neighbor.py]
      - [src/comparador.py]

    Conventions.
      - A Python [float] is an IEEE-754 binary64 value: [spec_float] with
        precision 53 and maximal exponent 1024.  Addition, subtraction,
        multiplication, division and the comparisons are the correctly
        rounded operations of [SpecFloat]; infinities and NaN are values.
      - A Python [int] is a [Z]; list subscripts follow Python's rule for
        negative positions and raise [IndexError] out of range.
      - A Python exception is the [Raise] branch of the error monad [res].
      - [time.time()] is read twice by each solver; the two readings are
        arguments of the model.
      - The console narration guarded by [verbose] produces no value; the
        definitions follow the code with [verbose=False].
      - [distance_calculator.py] calls the C library's [sin], [cos],
        [atan2] and power function; they are a parameter of its model, the
        rest of its arithmetic is binary64. *)

From Stdlib Require Import ZArith List Bool Lia Permutation Arith Sorted.
From Stdlib Require String.
From Stdlib Require Import Floats.SpecFloat.
Import ListNotations.

Local Open Scope Z_scope.

(** ** Python values *)

Module Py.

(** The exceptions the modelled code can raise. *)
Inductive exn : Set :=
| IndexError
| TypeError
| ValueError
| ZeroDivisionError
| OverflowError.

(** Outcome of a call: a value, or a raised exception. *)
Inductive res (A : Type) : Type :=
| Ok (a : A)
| Raise (e : exn).

Arguments Ok {A} a.
Arguments Raise {A} e.

Definition bind {A B : Type} (c : res A) (k : A -> res B) : res B :=
  match c with
  | Ok a => k a
  | Raise e => Raise e
  end.

(** [len(l)] *)
Definition len {A : Type} (l : list A) : Z := Z.of_nat (length l).

(** Position read by the subscript [i] in a list of [n] items. *)
Definition posicion (n i : Z) : Z := if i <? 0 then i + n else i.

(** [l[i]] *)
Definition getitem {A : Type} (l : list A) (i : Z) : res A :=
  let k := posicion (len l) i in
  if (0 <=? k) && (k <? len l) then
    match nth_error l (Z.to_nat k) with
    | Some a => Ok a
    | None => Raise IndexError
    end
  else Raise IndexError.

Fixpoint reemplazar {A : Type} (l : list A) (k : nat) (a : A) : list A :=
  match l, k with
  | [], _ => []
  | _ :: t, O => a :: t
  | x :: t, S k' => x :: reemplazar t k' a
  end.

(** [l[i] = a] *)
Definition setitem {A : Type} (l : list A) (i : Z) (a : A) : res (list A) :=
  let k := posicion (len l) i in
  if (0 <=? k) && (k <? len l) then Ok (reemplazar l (Z.to_nat k) a)
  else Raise IndexError.

Fixpoint range_desde (a : Z) (k : nat) : list Z :=
  match k with
  | O => []
  | S k' => a :: range_desde (a + 1) k'
  end.

(** [range(a, b)] *)
Definition range (a b : Z) : list Z := range_desde a (Z.to_nat (b - a)).

(** [for x in l: s = cuerpo(x, s)], stopping at the first exception. *)
Fixpoint for_each {A S : Type} (l : list A) (cuerpo : A -> S -> res S) (s : S)
  : res S :=
  match l with
  | [] => Ok s
  | x :: t => bind (cuerpo x s) (for_each t cuerpo)
  end.

(** Every way of taking one item out of a list, in position order. *)
Fixpoint selects {A : Type} (l : list A) : list (A * list A) :=
  match l with
  | [] => []
  | x :: t => (x, t) :: map (fun yr => (fst yr, x :: snd yr)) (selects t)
  end.

Fixpoint permutations_aux {A : Type} (k : nat) (l : list A) : list (list A) :=
  match k with
  | O => [[]]
  | S k' =>
      flat_map (fun xr => map (cons (fst xr)) (permutations_aux k' (snd xr)))
               (selects l)
  end.

(** [itertools.permutations(l)]: all orderings of the positions of [l], in
    lexicographic order of positions. *)
Definition permutations {A : Type} (l : list A) : list (list A) :=
  permutations_aux (length l) l.

End Py.

Import Py.

Declare Scope py_scope.
Delimit Scope py_scope with py.
Notation "x <- c ;; k" := (bind c (fun x => k))
(at level 61, c at next level, right associativity) : py_scope.
Local Open Scope py_scope.

(** ** Python floats *)

Module PyFloat.

Definition float : Set := spec_float.

Definition prec : Z := 53.
Definition emax : Z := 1024.

Definition add : float -> float -> float := SFadd prec emax.
Definition sub : float -> float -> float := SFsub prec emax.
Definition mul : float -> float -> float := SFmul prec emax.
Definition fdiv : float -> float -> float := SFdiv prec emax.
Definition ltb : float -> float -> bool := SFltb.
Definition leb : float -> float -> bool := SFleb.
Definition eqb : float -> float -> bool := SFeqb.

(** [0.0] *)
Definition cero : float := S754_zero false.
(** [float('inf')] *)
Definition inf : float := S754_infinity false.
(** The float nearest to an integer literal such as [100] or [12.0]. *)
Definition of_Z (z : Z) : float := binary_normalize prec emax z 0 false.

Definition is_nan (x : float) : bool :=
  match x with S754_nan => true | _ => false end.

(** Neither an infinity nor NaN. *)
Definition is_finite (x : float) : bool :=
  match x with
  | S754_zero _ | S754_finite _ _ _ => true
  | _ => false
  end.

(** [a / b]: Python raises instead of returning an infinity or NaN. *)
Definition truediv (a b : float) : res float :=
  if eqb b cero then Raise ZeroDivisionError else Ok (fdiv a b).

End PyFloat.

Import PyFloat.

(** ** Distance matrices *)

Module Matriz.

(** [n] rows of [n] entries. *)
Definition cuadrada (n : Z) (m : list (list float)) : bool :=
  (len m =? n) && forallb (fun fila => len fila =? n) m.

(** No entry is an infinity or NaN. *)
Definition finita (m : list (list float)) : bool :=
  forallb (forallb is_finite) m.

End Matriz.

Import Matriz.

(** ** [exhaustive_search.py] *)

Module ExhaustiveSearch.

Definition calcular_longitud_ciclo (ciclo : list Z) (matriz_dist : list (list float))
  : res float :=
  let n := len ciclo in
  for_each (range 0 n)
    (fun i longitud =>
       ciudad_actual <- getitem ciclo i ;;
       ciudad_siguiente <- getitem ciclo ((i + 1) mod n) ;;
       fila <- getitem matriz_dist ciudad_actual ;;
       d <- getitem fila ciudad_siguiente ;;
       Ok (add longitud d))
    cero.

(** One item of ['historial']. *)
Record entrada : Set := {
  ciclo : list Z;
  longitud : float;
  es_mejor : bool;
  iteracion : Z
}.

(** The local variables the search loop updates ([v_x] is the variable [x]). *)
Record variables : Set := {
  v_mejor_ciclo : option (list Z);
  v_mejor_longitud : float;
  v_ciclos_evaluados : Z;
  v_historial : list entrada
}.

Definition variables_iniciales : variables :=
  {| v_mejor_ciclo := None;
     v_mejor_longitud := inf;
     v_ciclos_evaluados := 0;
     v_historial := [] |}.

(** Body of [for perm in permutations(indices)]. *)
Definition evaluar (matriz_dist : list (list float)) (perm : list Z) (st : variables)
  : res variables :=
  let ciclo := 0 :: perm in
  longitud <- calcular_longitud_ciclo ciclo matriz_dist ;;
  let ciclos_evaluados := v_ciclos_evaluados st + 1 in
  let es_mejor := ltb longitud (v_mejor_longitud st) in
  Ok {| v_mejor_ciclo := if es_mejor then Some ciclo else v_mejor_ciclo st;
        v_mejor_longitud := if es_mejor then longitud else v_mejor_longitud st;
        v_ciclos_evaluados := ciclos_evaluados;
        v_historial :=
          if (ciclos_evaluados <=? 1000) || es_mejor
          then v_historial st ++
                 [{| ciclo := ciclo; longitud := longitud;
                     es_mejor := es_mejor; iteracion := ciclos_evaluados |}]
          else v_historial st |}.

(** The dictionary the search returns. *)
Record resultado : Set := {
  ciclo_optimo : option (list Z);
  longitud_optima : float;
  tiempo_ejecucion : float;
  ciclos_evaluados : Z;
  historial : list entrada
}.

Definition busqueda_exhaustiva {C : Type} (ciudades : list C)
    (matriz_dist : list (list float)) (inicio_tiempo fin_tiempo : float)
  : res resultado :=
  let n := len ciudades in
  let indices := range 1 n in
  st <- for_each (permutations indices) (evaluar matriz_dist) variables_iniciales ;;
  Ok {| ciclo_optimo := v_mejor_ciclo st;
        longitud_optima := v_mejor_longitud st;
        tiempo_ejecucion := sub fin_tiempo inicio_tiempo;
        ciclos_evaluados := v_ciclos_evaluados st;
        historial := v_historial st |}.

End ExhaustiveSearch.

(** ** [nearest_neighbor.py] *)

Module NearestNeighbor.

(** One item of ['historial']. *)
Record entrada : Set := {
  ciclo_parcial : list Z;
  ciudad_origen : Z;
  ciudad_destino : Z;
  distancia : float;
  longitud_acumulada : float;
  paso : Z
}.

(** The local variables the construction loop updates. *)
Record variables : Set := {
  v_visitadas : list bool;
  v_ciclo : list Z;
  v_longitud_total : float;
  v_historial : list entrada;
  v_ciudad_actual : Z
}.

(** The inner scan [for ciudad in range(n)], on the pair
    [(mejor_distancia, mejor_ciudad)]; [None] is Python's [None]. *)
Definition buscar (n : Z) (matriz_dist : list (list float))
    (visitadas : list bool) (ciudad_actual : Z) : res (float * option Z) :=
  for_each (range 0 n)
    (fun ciudad mejor =>
       v <- getitem visitadas ciudad ;;
       if negb v then
         fila <- getitem matriz_dist ciudad_actual ;;
         distancia <- getitem fila ciudad ;;
         if ltb distancia (fst mejor) then Ok (distancia, Some ciudad)
         else Ok mejor
       else Ok mejor)
    (inf, None).

(** Body of [for paso in range(n - 1)]. *)
Definition avanzar (n : Z) (matriz_dist : list (list float)) (paso : Z)
    (st : variables) : res variables :=
  mejor <- buscar n matriz_dist (v_visitadas st) (v_ciudad_actual st) ;;
  let mejor_distancia := fst mejor in
  match snd mejor with
  | None => Raise TypeError
  | Some mejor_ciudad =>
      let ciclo := v_ciclo st ++ [mejor_ciudad] in
      visitadas <- setitem (v_visitadas st) mejor_ciudad true ;;
      let longitud_total := add (v_longitud_total st) mejor_distancia in
      Ok {| v_visitadas := visitadas;
            v_ciclo := ciclo;
            v_longitud_total := longitud_total;
            v_historial :=
              v_historial st ++
                [{| ciclo_parcial := ciclo;
                    ciudad_origen := v_ciudad_actual st;
                    ciudad_destino := mejor_ciudad;
                    distancia := mejor_distancia;
                    longitud_acumulada := longitud_total;
                    paso := paso + 1 |}];
            v_ciudad_actual := mejor_ciudad |}
  end.

(** The dictionary the heuristic returns. *)
Record resultado : Set := {
  ciclo : list Z;
  longitud : float;
  tiempo_ejecucion : float;
  historial : list entrada
}.

Definition vecino_mas_cercano {C : Type} (ciudades : list C)
    (matriz_dist : list (list float)) (ciudad_inicio : Z)
    (inicio_tiempo fin_tiempo : float) : res resultado :=
  let n := len ciudades in
  let visitadas := repeat false (Z.to_nat n) in
  let ciclo := [ciudad_inicio] in
  visitadas <- setitem visitadas ciudad_inicio true ;;
  st <- for_each (range 0 (n - 1)) (avanzar n matriz_dist)
          {| v_visitadas := visitadas;
             v_ciclo := ciclo;
             v_longitud_total := cero;
             v_historial := [];
             v_ciudad_actual := ciudad_inicio |} ;;
  fila <- getitem matriz_dist (v_ciudad_actual st) ;;
  distancia_regreso <- getitem fila ciudad_inicio ;;
  let longitud_total := add (v_longitud_total st) distancia_regreso in
  Ok {| ciclo := v_ciclo st;
        longitud := longitud_total;
        tiempo_ejecucion := sub fin_tiempo inicio_tiempo;
        historial :=
          v_historial st ++
            [{| ciclo_parcial := v_ciclo st ++ [ciudad_inicio];
                ciudad_origen := v_ciudad_actual st;
                ciudad_destino := ciudad_inicio;
                distancia := distancia_regreso;
                longitud_acumulada := longitud_total;
                paso := n |}] |}.

(** [vecino_mas_cercano_multi_inicio]: the loop state is the pair
    [(mejor_solucion, mejor_longitud)]; [reloj inicio] gives the two clock
    readings of the run started at [inicio]. *)
Definition vecino_mas_cercano_multi_inicio {C : Type} (ciudades : list C)
    (matriz_dist : list (list float)) (reloj : Z -> float * float)
  : res (option resultado) :=
  let n := len ciudades in
  mejor <- for_each (range 0 n)
             (fun inicio mejor =>
                solucion <- vecino_mas_cercano ciudades matriz_dist inicio
                              (fst (reloj inicio)) (snd (reloj inicio)) ;;
                if ltb (longitud solucion) (snd mejor)
                then Ok (Some solucion, longitud solucion)
                else Ok mejor)
             (None, inf) ;;
  Ok (fst mejor).

End NearestNeighbor.

(** ** [comparador.py] *)

Module Comparador.

Definition calcular_gap (longitud_nn longitud_optima : float) : res float :=
  q <- truediv (sub longitud_nn longitud_optima) longitud_optima ;;
  Ok (mul q (of_Z 100)).

(** The dictionary [comparar_metodos] returns. *)
Record comparacion : Set := {
  n_ciudades : Z;
  longitud_optima : float;
  longitud_nn : float;
  diferencia_absoluta : float;
  gap_porcentaje : float;
  tiempo_exhaustivo : float;
  tiempo_nn : float;
  speedup : float;
  ciclos_evaluados : Z;
  ciclo_optimo : option (list Z);
  ciclo_nn : list Z
}.

Definition comparar_metodos {C : Type}
    (resultado_exhaustivo : ExhaustiveSearch.resultado)
    (resultado_nn : NearestNeighbor.resultado) (ciudades : list C)
  : res comparacion :=
  let long_optima := ExhaustiveSearch.longitud_optima resultado_exhaustivo in
  let long_nn := NearestNeighbor.longitud resultado_nn in
  let tiempo_exhaustivo := ExhaustiveSearch.tiempo_ejecucion resultado_exhaustivo in
  let tiempo_nn := NearestNeighbor.tiempo_ejecucion resultado_nn in
  let ciclos_evaluados := ExhaustiveSearch.ciclos_evaluados resultado_exhaustivo in
  gap <- calcular_gap long_nn long_optima ;;
  speedup <- (if ltb cero tiempo_nn then truediv tiempo_exhaustivo tiempo_nn
              else Ok inf) ;;
  let diferencia_absoluta := sub long_nn long_optima in
  Ok {| n_ciudades := len ciudades;
        longitud_optima := long_optima;
        longitud_nn := long_nn;
        diferencia_absoluta := diferencia_absoluta;
        gap_porcentaje := gap;
        tiempo_exhaustivo := tiempo_exhaustivo;
        tiempo_nn := tiempo_nn;
        speedup := speedup;
        ciclos_evaluados := ciclos_evaluados;
        ciclo_optimo := ExhaustiveSearch.ciclo_optimo resultado_exhaustivo;
        ciclo_nn := NearestNeighbor.ciclo resultado_nn |}.

End Comparador.

(** ** [distance_calculator.py]

    The two metrics compute in binary64.  Subtraction, addition,
    multiplication, division and [math.sqrt] are correctly rounded
    operations; [math.radians] is the product with the double [pi / 180.0].
    [math.sin], [math.cos], [math.atan2] and the power operator [**] go
    through the C library, which is not part of the repository and has no
    bit-exact specification: the model takes them as a parameter, each with
    the exception Python may raise in its place ([ValueError] for a domain
    error, [OverflowError] for a result out of range). *)

Module DistanceCalculator.

Import Stdlib.Strings.String.
Import PyFloat.

(** A city: [{'nombre': ..., 'coords': (lat, lon)}]. *)
Record ciudad : Type := {
  nombre : String.string;
  coords : float * float
}.

(** The functions of the C library the module calls. *)
Record libm : Type := {
  (** [x ** y] on floats *)
  float_pow : float -> float -> res float;
  (** [math.sin] *)
  math_sin : float -> res float;
  (** [math.cos] *)
  math_cos : float -> res float;
  (** [math.atan2] *)
  math_atan2 : float -> float -> res float
}.

(** [math.sqrt]: a negative argument is a domain error; NaN and [-0.0] are
    returned as they are. *)
Definition math_sqrt (x : float) : res float :=
  if ltb x cero then Raise ValueError else Ok (SFsqrt prec emax x).

(** The double nearest to pi, [0x1.921fb54442d18p+1]. *)
Definition pi : float := S754_finite false 7074237752028440 (-51).

(** [math.radians] *)
Definition math_radians (x : float) : float := mul x (fdiv pi (of_Z 180)).

Definition distancia_euclidiana (lm : libm) (coord1 coord2 : float * float)
  : res float :=
  let (lat1, lon1) := coord1 in
  let (lat2, lon2) := coord2 in
  p1 <- float_pow lm (sub lat1 lat2) (of_Z 2) ;;
  p2 <- float_pow lm (sub lon1 lon2) (of_Z 2) ;;
  math_sqrt (add p1 p2).

Definition distancia_haversine (lm : libm) (coord1 coord2 : float * float)
  : res float :=
  let R_tierra := of_Z 6371 in
  let (lat1, lon1) := (math_radians (fst coord1), math_radians (snd coord1)) in
  let (lat2, lon2) := (math_radians (fst coord2), math_radians (snd coord2)) in
  let dlat := sub lat2 lat1 in
  let dlon := sub lon2 lon1 in
  h1 <- truediv dlat (of_Z 2) ;;
  s1 <- math_sin lm h1 ;;
  q1 <- float_pow lm s1 (of_Z 2) ;;
  c1 <- math_cos lm lat1 ;;
  c2 <- math_cos lm lat2 ;;
  h2 <- truediv dlon (of_Z 2) ;;
  s2 <- math_sin lm h2 ;;
  q2 <- float_pow lm s2 (of_Z 2) ;;
  let a := add q1 (mul (mul c1 c2) q2) in
  ra <- math_sqrt a ;;
  rb <- math_sqrt (sub (of_Z 1) a) ;;
  t <- math_atan2 lm ra rb ;;
  let c := mul (of_Z 2) t in
  Ok (mul R_tierra c).

(** The dictionary [metodos]. *)
Definition metodos (lm : libm) (metodo : String.string)
  : option (float * float -> float * float -> res float) :=
  if String.eqb metodo "euclid"%string then Some (distancia_euclidiana lm)
  else if String.eqb metodo "haversine"%string then Some (distancia_haversine lm)
  else None.

(** [matriz[i][j] = v] *)
Definition asignar (matriz : list (list float)) (i j : Z) (v : float)
  : res (list (list float)) :=
  fila <- getitem matriz i ;;
  fila' <- setitem fila j v ;;
  setitem matriz i fila'.

Definition construir_matriz_distancias (lm : libm) (ciudades : list ciudad)
    (metodo : String.string) : res (list (list float)) :=
  match metodos lm metodo with
  | None => Raise ValueError
  | Some func_distancia =>
      let n := len ciudades in
      let matriz := repeat (repeat cero (Z.to_nat n)) (Z.to_nat n) in
      for_each (range 0 n)
        (fun i matriz =>
           for_each (range 0 n)
             (fun j matriz =>
                if (i =? j)%Z then asignar matriz i j cero
                else
                  ci <- getitem ciudades i ;;
                  cj <- getitem ciudades j ;;
                  d <- func_distancia (coords ci) (coords cj) ;;
                  asignar matriz i j d)
             matriz)
        matriz
  end.

End DistanceCalculator.

(** ** [exhaustive_search.py]: readable routes *)

Module RutaLegible.

Import DistanceCalculator.

(** [[f(x) for x in l]], stopping at the first exception. *)
Fixpoint comprension {A B : Type} (f : A -> res B) (l : list A) : res (list B) :=
  match l with
  | [] => Ok []
  | x :: t => y <- f x ;; ys <- comprension f t ;; Ok (y :: ys)
  end.

Definition obtener_ruta_legible (ciclo : list Z) (ciudades : list ciudad)
  : res (list String.string) :=
  comprension (fun i => c <- getitem ciudades i ;; Ok (nombre c)) ciclo.

End RutaLegible.

(** ** Sample instances *)

Module Ejemplos.

(** Three cities on a line: distances 1, 1 and 2. *)
Definition tres_ciudades : list unit := [tt; tt; tt].
Definition matriz_tres : list (list float) :=
  [[cero; of_Z 1; of_Z 2]; [of_Z 1; cero; of_Z 1]; [of_Z 2; of_Z 1; cero]].

(** The corners (0,0), (0,1), (1,1), (1,0) of the unit square under the
    Euclidean metric; the diagonal is the binary64 square root of 2. *)
Definition raiz_dos : float := SFsqrt prec emax (of_Z 2).
Definition cuatro_ciudades : list unit := [tt; tt; tt; tt].
Definition matriz_cuadrado : list (list float) :=
  [[cero; of_Z 1; raiz_dos; of_Z 1];
   [of_Z 1; cero; of_Z 1; raiz_dos];
   [raiz_dos; of_Z 1; cero; of_Z 1];
   [of_Z 1; raiz_dos; of_Z 1; cero]].

End Ejemplos.

(** * Properties *)

(** ** Order and addition on floats *)

Module FloatFacts.

Lemma cont_compare (p q : positive) : Pos.compare_cont Eq p q = Pos.compare p q.
Proof. reflexivity. Qed.

Ltac orden :=
  repeat match goal with
    | s : bool |- _ => destruct s
    end;
  cbn in *; try congruence; try reflexivity;
  rewrite ?cont_compare in *;
  repeat match goal with
    | |- context [Z.compare ?a ?b] => destruct (Z.compare_spec a b)
    | H : context [Z.compare ?a ?b] |- _ => destruct (Z.compare_spec a b)
    | |- context [Pos.compare ?a ?b] => destruct (Pos.compare_spec a b)
    | H : context [Pos.compare ?a ?b] |- _ => destruct (Pos.compare_spec a b)
    end;
  cbn in *; try congruence; try reflexivity; try lia.

Lemma leb_refl (x : float) : is_nan x = false -> leb x x = true.
Proof.
  unfold leb, SFleb. destruct x as [s|s| |s m e]; intros H; orden.
Qed.

Lemma ltb_false_leb (x y : float) :
  is_nan x = false -> is_nan y = false -> ltb x y = false -> leb y x = true.
Proof.
  unfold ltb, leb, SFltb, SFleb.
  destruct x as [s|s| |s m e], y as [s'|s'| |s' m' e']; intros Hx Hy H; orden.
Qed.

Lemma ltb_leb (x y : float) : ltb x y = true -> leb x y = true.
Proof.
  unfold ltb, leb, SFltb, SFleb. destruct (SFcompare x y) as [[]|]; congruence.
Qed.

Lemma leb_trans (x y z : float) :
  leb x y = true -> leb y z = true -> leb x z = true.
Proof.
  unfold leb, SFleb.
  destruct x as [s|s| |s m e], y as [s'|s'| |s' m' e'],
           z as [s''|s''| |s'' m'' e'']; intros H1 H2; orden.
Qed.

Lemma ltb_leb_trans (x y z : float) :
  ltb x y = true -> leb y z = true -> ltb x z = true.
Proof.
  unfold ltb, leb, SFltb, SFleb.
  destruct x as [s|s| |s m e], y as [s'|s'| |s' m' e'],
           z as [s''|s''| |s'' m'' e'']; intros H1 H2; orden.
Qed.

Lemma finite_ltb_inf (x : float) : is_finite x = true -> ltb x inf = true.
Proof. destruct x as [s|s| |s m e]; cbn; try congruence; destruct s; reflexivity. Qed.

Lemma finite_not_nan (x : float) : is_finite x = true -> is_nan x = false.
Proof. destruct x; cbn; congruence. Qed.

Lemma leb_inf (x : float) : is_nan x = false -> leb x inf = true.
Proof. destruct x as [s|s| |s m e]; cbn; try congruence; destruct s; reflexivity. Qed.

(** Rounding never produces NaN: the mantissa stays non-negative through
    the shifts. *)

Lemma shr_1_nonneg (mrs : shr_record) : 0 <= shr_m mrs -> 0 <= shr_m (shr_1 mrs).
Proof.
  destruct mrs as [m r s]; cbn. destruct m as [|[p|p|]|p]; cbn; lia.
Qed.

Lemma iter_shr_1_nonneg (p : positive) (mrs : shr_record) :
  0 <= shr_m mrs -> 0 <= shr_m (SpecFloat.iter_pos shr_1 p mrs).
Proof.
  revert mrs. induction p as [p IH|p IH|]; intros mrs H; cbn.
  - apply IH, IH, shr_1_nonneg, H.
  - apply IH, IH, H.
  - apply shr_1_nonneg, H.
Qed.

Lemma shr_fexp_nonneg (m e : Z) (l : location) :
  0 <= m -> 0 <= shr_m (fst (shr_fexp prec emax m e l)).
Proof.
  intros H. unfold shr_fexp, shr.
  assert (H0 : 0 <= shr_m (shr_record_of_loc m l))
    by (destruct l as [|[]]; cbn; exact H).
  destruct (fexp prec emax (Zdigits2 m + e) - e); cbn; try exact H0.
  apply iter_shr_1_nonneg, H0.
Qed.

Lemma round_nearest_even_nonneg (m : Z) (l : location) :
  0 <= m -> 0 <= round_nearest_even m l.
Proof.
  intros H. destruct l as [|[]]; cbn; try lia. destruct (Z.even m); lia.
Qed.

Lemma binary_round_aux_not_nan (s : bool) (m e : Z) (l : location) :
  0 <= m -> is_nan (binary_round_aux prec emax s m e l) = false.
Proof.
  intros H. unfold binary_round_aux.
  pose proof (shr_fexp_nonneg m e l H) as H1.
  destruct (shr_fexp prec emax m e l) as [mrs' e']; cbn in H1.
  pose proof (shr_fexp_nonneg _ e' loc_Exact
                (round_nearest_even_nonneg _ (loc_of_shr_record mrs') H1)) as H2.
  destruct (shr_fexp prec emax _ e' loc_Exact) as [mrs'' e'']; cbn in H2.
  destruct (shr_m mrs''); try lia; try reflexivity.
  destruct (e'' <=? emax - prec); reflexivity.
Qed.

Lemma binary_normalize_not_nan (m e : Z) (s : bool) :
  is_nan (binary_normalize prec emax m e s) = false.
Proof.
  destruct m as [|p|p]; cbn -[binary_round_aux]; try reflexivity;
    unfold binary_round;
    destruct (shl_align _ _ _) as [mz ez];
    apply binary_round_aux_not_nan; lia.
Qed.

(** Adding a finite value never turns a number into NaN. *)
Lemma add_finite_not_nan (x y : float) :
  is_nan x = false -> is_finite y = true -> is_nan (add x y) = false.
Proof.
  intros Hx Hy. unfold add.
  destruct x as [s|s| |s m e], y as [s'|s'| |s' m' e']; try discriminate;
    try reflexivity.
  - destruct s, s'; reflexivity.
  - unfold SFadd. apply binary_normalize_not_nan.
Qed.

End FloatFacts.

(** ** Lists, subscripts, ranges and loops *)

Module PyFacts.

Lemma len_nonneg {A : Type} (l : list A) : 0 <= len l.
Proof. unfold len. lia. Qed.

Lemma len_app {A : Type} (l l' : list A) : len (l ++ l') = len l + len l'.
Proof. unfold len. rewrite length_app. lia. Qed.

Lemma posicion_bounds (n i : Z) :
  - n <= i < n -> 0 <= posicion n i < n.
Proof. unfold posicion. destruct (Z.ltb_spec i 0); lia. Qed.

Lemma posicion_nonneg (n i : Z) : 0 <= i -> posicion n i = i.
Proof. unfold posicion. destruct (Z.ltb_spec i 0); lia. Qed.

Lemma posicion_out (n i : Z) :
  0 <= n -> ~ (- n <= i < n) -> ~ (0 <= posicion n i < n).
Proof. unfold posicion. destruct (Z.ltb_spec i 0); lia. Qed.

(** A subscript within [-len, len) reads the item at its position. *)
Lemma getitem_in {A : Type} (l : list A) (i : Z) :
  - len l <= i < len l ->
  exists a, getitem l i = Ok a /\
            nth_error l (Z.to_nat (posicion (len l) i)) = Some a.
Proof.
  intros H. apply posicion_bounds in H. unfold getitem.
  destruct (Z.leb_spec 0 (posicion (len l) i)); [|lia].
  destruct (Z.ltb_spec (posicion (len l) i) (len l)); [|lia]. cbn.
  destruct (nth_error l (Z.to_nat (posicion (len l) i))) as [a|] eqn:E.
  - eauto.
  - apply nth_error_None in E. unfold len in *. lia.
Qed.

(** Any other subscript raises [IndexError]. *)
Lemma getitem_out {A : Type} (l : list A) (i : Z) :
  ~ (- len l <= i < len l) -> getitem l i = Raise IndexError.
Proof.
  intros H. apply posicion_out in H; [|apply len_nonneg]. unfold getitem.
  destruct (Z.leb_spec 0 (posicion (len l) i)); cbn; [|reflexivity].
  destruct (Z.ltb_spec (posicion (len l) i) (len l)); [lia|reflexivity].
Qed.

Lemma setitem_in {A : Type} (l : list A) (i : Z) (a : A) :
  - len l <= i < len l ->
  setitem l i a = Ok (reemplazar l (Z.to_nat (posicion (len l) i)) a).
Proof.
  intros H. apply posicion_bounds in H. unfold setitem.
  destruct (Z.leb_spec 0 (posicion (len l) i)); [|lia].
  destruct (Z.ltb_spec (posicion (len l) i) (len l)); [|lia]. reflexivity.
Qed.

Lemma setitem_out {A : Type} (l : list A) (i : Z) (a : A) :
  ~ (- len l <= i < len l) -> setitem l i a = Raise IndexError.
Proof.
  intros H. apply posicion_out in H; [|apply len_nonneg]. unfold setitem.
  destruct (Z.leb_spec 0 (posicion (len l) i)); cbn; [|reflexivity].
  destruct (Z.ltb_spec (posicion (len l) i) (len l)); [lia|reflexivity].
Qed.

Lemma reemplazar_length {A : Type} (l : list A) (k : nat) (a : A) :
  length (reemplazar l k a) = length l.
Proof.
  revert k. induction l as [|x t IH]; intros [|k]; cbn; auto.
Qed.

Lemma reemplazar_nth_eq {A : Type} (l : list A) (k : nat) (a : A) :
  (k < length l)%nat -> nth_error (reemplazar l k a) k = Some a.
Proof.
  revert k. induction l as [|x t IH]; intros [|k] H; cbn in *; try lia; auto.
  apply IH. lia.
Qed.

Lemma reemplazar_nth_neq {A : Type} (l : list A) (k j : nat) (a : A) :
  j <> k -> nth_error (reemplazar l k a) j = nth_error l j.
Proof.
  revert k j. induction l as [|x t IH]; intros [|k] [|j] H; cbn; auto;
    try congruence.
Qed.

(** *** [range] *)

Lemma range_desde_length (a : Z) (k : nat) : length (range_desde a k) = k.
Proof. revert a. induction k as [|k IH]; intros a; cbn; auto. Qed.

Lemma range_desde_In (a : Z) (k : nat) (i : Z) :
  In i (range_desde a k) <-> a <= i < a + Z.of_nat k.
Proof.
  revert a. induction k as [|k IH]; intros a; cbn [range_desde In].
  - lia.
  - rewrite IH. lia.
Qed.

Lemma range_desde_NoDup (a : Z) (k : nat) : NoDup (range_desde a k).
Proof.
  revert a. induction k as [|k IH]; intros a; cbn; constructor; auto.
  rewrite range_desde_In. lia.
Qed.

(** A prefix of a range is the range of the items below the next one. *)
Lemma range_desde_split (a : Z) (k : nat) (hecho resto : list Z) (x : Z) :
  range_desde a k = hecho ++ x :: resto ->
  x = a + Z.of_nat (length hecho) /\ hecho = range_desde a (length hecho)
  /\ (length hecho < k)%nat.
Proof.
  revert a hecho. induction k as [|k IH]; intros a hecho H.
  - destruct hecho; discriminate.
  - destruct hecho as [|h hecho]; cbn in H; injection H as -> H.
    + cbn. repeat split; lia.
    + apply IH in H. destruct H as (-> & E & Hk). cbn [length range_desde].
      rewrite <- E. repeat split; lia.
Qed.

Lemma range_In (a b i : Z) : In i (range a b) <-> a <= i < b.
Proof. unfold range. rewrite range_desde_In. lia. Qed.

Lemma range_length (a b : Z) : length (range a b) = Z.to_nat (b - a).
Proof. apply range_desde_length. Qed.

(** *** [for] loops *)

(** Invariant rule: [Inv hecho s] relates the items already visited to the
    state; every body run from a state satisfying it succeeds and restores
    it. *)
Lemma for_each_inv {A S : Type} (Inv : list A -> S -> Prop)
    (cuerpo : A -> S -> res S) (l : list A) (s0 : S) :
  Inv [] s0 ->
  (forall hecho x resto s,
      l = hecho ++ x :: resto -> Inv hecho s ->
      exists s', cuerpo x s = Ok s' /\ Inv (hecho ++ [x]) s') ->
  exists s', for_each l cuerpo s0 = Ok s' /\ Inv l s'.
Proof.
  intros H0 Hstep.
  assert (G : forall resto hecho s,
             l = hecho ++ resto -> Inv hecho s ->
             exists s', for_each resto cuerpo s = Ok s' /\ Inv l s').
  { induction resto as [|x resto IH]; intros hecho s E HI.
    - rewrite app_nil_r in E. subst. cbn. eauto.
    - destruct (Hstep hecho x resto s E HI) as (s1 & E1 & H1).
      cbn. rewrite E1. cbn. apply (IH (hecho ++ [x])); auto.
      rewrite <- app_assoc. exact E. }
  apply (G l [] s0); auto.
Qed.

(** *** [itertools.permutations] *)

Lemma selects_spec {A : Type} (l : list A) (x : A) (r : list A) :
  In (x, r) (selects l) <->
  exists l1 l2, l = l1 ++ x :: l2 /\ r = l1 ++ l2.
Proof.
  revert x r. induction l as [|y t IH]; intros x r; cbn.
  - split; [tauto|]. intros (l1 & l2 & E & _). destruct l1; discriminate.
  - rewrite in_map_iff. split.
    + intros [E|((z, r') & E & Hin)].
      * injection E as -> ->. exists [], r. auto.
      * cbn in E. injection E as -> <-. apply IH in Hin.
        destruct Hin as (l1 & l2 & -> & ->). exists (y :: l1), l2. auto.
    + intros (l1 & l2 & E & ->). destruct l1 as [|z l1]; cbn in E.
      * injection E as -> ->. auto.
      * injection E as -> ->. right. exists (x, l1 ++ l2). split; auto.
        apply IH. eauto.
Qed.

Lemma selects_length {A : Type} (l : list A) : length (selects l) = length l.
Proof. induction l as [|y t IH]; cbn; rewrite ?length_map; auto. Qed.

Lemma selects_snd_length {A : Type} (l : list A) (xr : A * list A) :
  In xr (selects l) -> length l = S (length (snd xr)).
Proof.
  destruct xr as (x, r). intros H. apply selects_spec in H.
  destruct H as (l1 & l2 & -> & ->). cbn. rewrite !length_app. cbn. lia.
Qed.

Lemma permutations_aux_sound {A : Type} (k : nat) (l p : list A) :
  length l = k -> In p (permutations_aux k l) -> Permutation p l.
Proof.
  revert l p. induction k as [|k IH]; intros l p Hl H; cbn in H.
  - destruct l; [|discriminate]. destruct H as [<-|[]]. constructor.
  - apply in_flat_map in H. destruct H as ((x, r) & Hsel & H). cbn in H.
    apply in_map_iff in H. destruct H as (p' & <- & H).
    pose proof (selects_snd_length _ _ Hsel) as Hr. cbn in Hr.
    apply selects_spec in Hsel. destruct Hsel as (l1 & l2 & -> & ->).
    apply Permutation_cons_app, IH; [lia|exact H].
Qed.

Lemma permutations_aux_complete {A : Type} (p l : list A) :
  Permutation p l -> In p (permutations_aux (length l) l).
Proof.
  revert l. induction p as [|x p IH]; intros l H.
  - apply Permutation_nil in H. subst. cbn. auto.
  - assert (Hx : In x l) by (eapply Permutation_in; [exact H|left; reflexivity]).
    apply in_split in Hx. destruct Hx as (l1 & l2 & ->).
    apply Permutation_cons_app_inv in H.
    replace (length (l1 ++ x :: l2)) with (S (length (l1 ++ l2)))
      by (rewrite !length_app; cbn; lia).
    cbn. apply in_flat_map. exists (x, l1 ++ l2). split.
    + apply selects_spec. eauto.
    + cbn. apply in_map, IH, H.
Qed.

Lemma flat_map_length_const {A B : Type} (f : A -> list B) (l : list A) (c : nat) :
  (forall x, In x l -> length (f x) = c) ->
  length (flat_map f l) = (length l * c)%nat.
Proof.
  induction l as [|x t IH]; intros H; cbn; auto.
  rewrite length_app, IH, H.
  - reflexivity.
  - left. reflexivity.
  - intros y Hy. apply H. right. exact Hy.
Qed.

Lemma permutations_aux_length {A : Type} (k : nat) (l : list A) :
  length l = k -> length (permutations_aux k l) = fact k.
Proof.
  revert l. induction k as [|k IH]; intros l Hl; cbn [permutations_aux fact].
  - reflexivity.
  - rewrite (flat_map_length_const _ _ (fact k)).
    + rewrite selects_length, Hl. reflexivity.
    + intros xr Hxr. rewrite length_map. apply IH.
      apply selects_snd_length in Hxr. lia.
Qed.

(** [permutations l] lists exactly the orderings of [l] ... *)
Lemma permutations_In {A : Type} (l p : list A) :
  In p (permutations l) <-> Permutation p l.
Proof.
  split.
  - apply permutations_aux_sound. reflexivity.
  - apply permutations_aux_complete.
Qed.

(** ... and there are [len(l)!] of them. *)
Lemma permutations_length {A : Type} (l : list A) :
  length (permutations l) = fact (length l).
Proof. apply permutations_aux_length. reflexivity. Qed.

End PyFacts.

(** ** Reading a distance matrix *)

Module MatrizFacts.
Import PyFacts.

Lemma cuadrada_len (n : Z) (m : list (list float)) :
  cuadrada n m = true -> len m = n.
Proof.
  unfold cuadrada. intros H. apply andb_true_iff in H. lia.
Qed.

Lemma entrada_ok (n : Z) (m : list (list float)) (i j : Z) :
  cuadrada n m = true -> - n <= i < n -> - n <= j < n ->
  exists fila x,
    getitem m i = Ok fila /\ getitem fila j = Ok x /\ len fila = n /\
    (finita m = true -> is_finite x = true).
Proof.
  unfold cuadrada, finita. intros H Hi Hj. apply andb_true_iff in H.
  destruct H as (Hn & Hf). apply Z.eqb_eq in Hn. rewrite forallb_forall in Hf.
  destruct (getitem_in m i) as (fila & E & Hnth); [lia|].
  apply nth_error_In in Hnth. pose proof (Hf _ Hnth) as Hl. apply Z.eqb_eq in Hl.
  destruct (getitem_in fila j) as (x & E' & Hnth'); [lia|].
  exists fila, x. repeat split; auto.
  intros Hfin. rewrite forallb_forall in Hfin. apply Hfin in Hnth.
  rewrite forallb_forall in Hnth. apply Hnth. eapply nth_error_In, Hnth'.
Qed.

End MatrizFacts.

(** ** Exhaustive search *)

Module ExhaustiveFacts.
Import PyFacts MatrizFacts FloatFacts ExhaustiveSearch Ejemplos.

(** The length of a cycle over valid cities is defined, and is a number when
    the matrix is finite. *)
Lemma calcular_longitud_ciclo_ok (n : Z) (m : list (list float)) (c : list Z) :
  cuadrada n m = true ->
  Forall (fun x => - n <= x < n) c ->
  exists L, calcular_longitud_ciclo c m = Ok L /\
            (finita m = true -> is_nan L = false).
Proof.
  intros Hm Hc. unfold calcular_longitud_ciclo.
  apply (for_each_inv (fun _ L => finita m = true -> is_nan L = false)).
  - reflexivity.
  - intros hecho i resto L E HL.
    assert (Hi : 0 <= i < len c).
    { apply (range_In 0 (len c)). rewrite E. apply in_elt. }
    rewrite Forall_forall in Hc.
    destruct (getitem_in c i) as (a & Ea & Ha); [lia|].
    destruct (getitem_in c ((i + 1) mod len c)) as (b & Eb & Hb).
    { pose proof (Z.mod_pos_bound (i + 1) (len c)). lia. }
    apply nth_error_In, Hc in Ha. apply nth_error_In, Hc in Hb.
    destruct (entrada_ok n m a b Hm Ha Hb) as (fila & x & Ef & Ex & _ & Hx).
    rewrite Ea, Eb. cbn [bind]. rewrite Ef. cbn [bind]. rewrite Ex. cbn [bind].
    eexists. split; [reflexivity|].
    intros Hfin. apply add_finite_not_nan; auto.
Qed.

Lemma permutacion_en_rango (n : Z) (p : list Z) :
  1 <= n -> Permutation p (range 1 n) ->
  Forall (fun x => - n <= x < n) (0 :: p).
Proof.
  intros Hn Hp. constructor; [lia|]. apply Forall_forall. intros x Hx.
  apply (Permutation_in _ Hp), range_In in Hx. lia.
Qed.

(** The length the loop computes for [perm], as a total function. *)
Definition longitud_de (m : list (list float)) (perm : list Z) : float :=
  match calcular_longitud_ciclo (0 :: perm) m with
  | Ok L => L
  | Raise _ => S754_nan
  end.

(** The loop body when the length is defined. *)
Definition registrar (m : list (list float)) (st : variables) (perm : list Z)
  : variables :=
  let L := longitud_de m perm in
  let k := v_ciclos_evaluados st + 1 in
  let b := ltb L (v_mejor_longitud st) in
  {| v_mejor_ciclo := if b then Some (0 :: perm) else v_mejor_ciclo st;
     v_mejor_longitud := if b then L else v_mejor_longitud st;
     v_ciclos_evaluados := k;
     v_historial :=
       if (k <=? 1000) || b
       then v_historial st ++
              [{| ciclo := 0 :: perm; longitud := L; es_mejor := b;
                  iteracion := k |}]
       else v_historial st |}.

Lemma evaluar_registrar (n : Z) (m : list (list float)) (p : list Z) :
  1 <= n -> cuadrada n m = true -> Permutation p (range 1 n) ->
  calcular_longitud_ciclo (0 :: p) m = Ok (longitud_de m p) /\
  (finita m = true -> is_nan (longitud_de m p) = false) /\
  forall st, evaluar m p st = Ok (registrar m st p).
Proof.
  intros Hn Hm Hp.
  destruct (calcular_longitud_ciclo_ok n m (0 :: p) Hm
              (permutacion_en_rango n p Hn Hp)) as (L & E & HL).
  unfold longitud_de, evaluar, registrar, longitud_de. rewrite E.
  repeat split; auto.
Qed.

Lemma for_each_fold_left {A S : Type} (cuerpo : A -> S -> res S)
    (f : S -> A -> S) (l : list A) (s : S) :
  (forall x, In x l -> forall s, cuerpo x s = Ok (f s x)) ->
  for_each l cuerpo s = Ok (fold_left f l s).
Proof.
  revert s. induction l as [|x t IH]; intros s H; cbn.
  - reflexivity.
  - rewrite H by (left; reflexivity). cbn. apply IH.
    intros y Hy. apply H. right. exact Hy.
Qed.

(** On a square matrix the search never raises: it is the fold of
    [registrar] over the permutations. *)
Lemma busqueda_exhaustiva_fold {C : Type} (ciudades : list C)
    (m : list (list float)) (t0 t1 : float) :
  1 <= len ciudades -> cuadrada (len ciudades) m = true ->
  busqueda_exhaustiva ciudades m t0 t1 =
  let st := fold_left (registrar m) (permutations (range 1 (len ciudades)))
              variables_iniciales in
  Ok {| ciclo_optimo := v_mejor_ciclo st;
        longitud_optima := v_mejor_longitud st;
        tiempo_ejecucion := sub t1 t0;
        ciclos_evaluados := v_ciclos_evaluados st;
        historial := v_historial st |}.
Proof.
  intros Hn Hm. unfold busqueda_exhaustiva.
  rewrite (for_each_fold_left _ (registrar m)).
  - reflexivity.
  - intros p Hp. apply permutations_In in Hp.
    apply (evaluar_registrar _ m p Hn Hm Hp).
Qed.

Lemma fold_registrar_evaluados (m : list (list float)) (l : list (list Z))
    (st : variables) :
  v_ciclos_evaluados (fold_left (registrar m) l st) =
  v_ciclos_evaluados st + len l.
Proof.
  revert st. induction l as [|p t IH]; intros st; cbn [fold_left].
  - unfold len. cbn. lia.
  - rewrite IH. unfold len. cbn [registrar v_ciclos_evaluados length]. lia.
Qed.

(** The running minimum is a number below every length seen so far. *)
Lemma fold_registrar_minimo (m : list (list float)) (l : list (list Z))
    (st : variables) :
  is_nan (v_mejor_longitud st) = false ->
  (forall p, In p l -> is_nan (longitud_de m p) = false) ->
  let st' := fold_left (registrar m) l st in
  is_nan (v_mejor_longitud st') = false /\
  leb (v_mejor_longitud st') (v_mejor_longitud st) = true /\
  forall p, In p l -> leb (v_mejor_longitud st') (longitud_de m p) = true.
Proof.
  revert st. induction l as [|p t IH]; intros st Hst Hl; cbn [fold_left].
  - cbn. split; [exact Hst|]. split; [apply leb_refl, Hst|]. intros p [].
  - assert (Hp : is_nan (longitud_de m p) = false) by (apply Hl; left; auto).
    set (st1 := registrar m st p).
    assert (H1 : is_nan (v_mejor_longitud st1) = false /\
                 leb (v_mejor_longitud st1) (v_mejor_longitud st) = true /\
                 leb (v_mejor_longitud st1) (longitud_de m p) = true).
    { unfold st1, registrar. cbn.
      destruct (ltb (longitud_de m p) (v_mejor_longitud st)) eqn:E.
      - split; [exact Hp|]. split; [apply ltb_leb, E|apply leb_refl, Hp].
      - split; [exact Hst|]. split; [apply leb_refl, Hst|].
        apply ltb_false_leb; auto. }
    destruct H1 as (Hn1 & Hle1 & Hp1).
    destruct (IH st1 Hn1) as (Hn' & Hle' & Hall').
    { intros q Hq. apply Hl. right. exact Hq. }
    cbn zeta. split; [exact Hn'|]. split.
    + eapply leb_trans; eauto.
    + intros q [<-|Hq]; [eapply leb_trans; eauto | auto].
Qed.

(** C1. Global optimality: on [n >= 1] cities and a finite [n] by [n]
    distance matrix the search returns, and the length it returns is at most
    the closed-cycle length, as [calcular_longitud_ciclo] computes it, of
    every cycle [[0] ++ p] with [p] a permutation of [1 .. n-1]. *)
Theorem busqueda_exhaustiva_optima {C : Type} (ciudades : list C)
    (m : list (list float)) (t0 t1 : float) :
  1 <= len ciudades ->
  cuadrada (len ciudades) m = true ->
  finita m = true ->
  exists r,
    busqueda_exhaustiva ciudades m t0 t1 = Ok r /\
    forall p, Permutation p (range 1 (len ciudades)) ->
      exists L, calcular_longitud_ciclo ([0] ++ p) m = Ok L /\
                leb (longitud_optima r) L = true.
Proof.
  intros Hn Hm Hfin. rewrite (busqueda_exhaustiva_fold _ _ _ _ Hn Hm).
  eexists. split; [reflexivity|]. cbn [longitud_optima].
  intros p Hp.
  destruct (evaluar_registrar _ m p Hn Hm Hp) as (E & _ & _).
  exists (longitud_de m p). split; [exact E|].
  apply fold_registrar_minimo.
  - reflexivity.
  - intros q Hq. apply permutations_In in Hq.
    apply (evaluar_registrar _ m q Hn Hm Hq); exact Hfin.
  - apply permutations_In, Hp.
Qed.

Lemma busqueda_exhaustiva_optima_witness :
  (1 <= len tres_ciudades /\
   cuadrada (len tres_ciudades) matriz_tres = true /\
   finita matriz_tres = true) /\
  exists r,
    busqueda_exhaustiva tres_ciudades matriz_tres cero cero = Ok r /\
    forall p, Permutation p (range 1 (len tres_ciudades)) ->
      exists L, calcular_longitud_ciclo ([0] ++ p) matriz_tres = Ok L /\
                leb (longitud_optima r) L = true.
Proof.
  split.
  - split; [vm_compute; discriminate | split; reflexivity].
  - apply busqueda_exhaustiva_optima;
      [vm_compute; discriminate | reflexivity | reflexivity].
Defined.

(** C2. On [n >= 1] cities and an [n] by [n] matrix the search returns with
    ['ciclos_evaluados'] equal to [(n-1)!]: every ordering of the cities
    [1 .. n-1] is counted, a cycle and its reflection both. *)
Theorem busqueda_exhaustiva_ciclos_evaluados {C : Type} (ciudades : list C)
    (m : list (list float)) (t0 t1 : float) :
  1 <= len ciudades ->
  cuadrada (len ciudades) m = true ->
  exists r,
    busqueda_exhaustiva ciudades m t0 t1 = Ok r /\
    ciclos_evaluados r = Z.of_nat (fact (length ciudades - 1)).
Proof.
  intros Hn Hm. rewrite (busqueda_exhaustiva_fold _ _ _ _ Hn Hm).
  eexists. split; [reflexivity|]. cbn [ciclos_evaluados].
  rewrite fold_registrar_evaluados. cbn [variables_iniciales v_ciclos_evaluados].
  unfold len at 1. rewrite permutations_length, range_length.
  unfold len in *. rewrite Z.add_0_l. do 2 f_equal. lia.
Qed.

Lemma busqueda_exhaustiva_ciclos_evaluados_witness :
  (1 <= len tres_ciudades /\ cuadrada (len tres_ciudades) matriz_tres = true) /\
  exists r,
    busqueda_exhaustiva tres_ciudades matriz_tres cero cero = Ok r /\
    ciclos_evaluados r = Z.of_nat (fact (length tres_ciudades - 1)).
Proof.
  split.
  - split; [vm_compute; discriminate | reflexivity].
  - apply busqueda_exhaustiva_ciclos_evaluados;
      [vm_compute; discriminate | reflexivity].
Defined.

(** With three cities the two cycles evaluated are reflections of each other,
    of equal length; both are counted and the first found is kept. *)
Example busqueda_exhaustiva_tres_ciudades :
  exists r,
    busqueda_exhaustiva tres_ciudades matriz_tres cero cero = Ok r /\
    ciclos_evaluados r = 2 /\
    ciclo_optimo r = Some [0; 1; 2] /\
    map ciclo (historial r) = [[0; 1; 2]; [0; 2; 1]] /\
    map longitud (historial r) = [of_Z 4; of_Z 4] /\
    map es_mejor (historial r) = [true; false].
Proof.
  eexists. split; [vm_compute; reflexivity|].
  vm_compute. repeat split; reflexivity.
Qed.

(** On the unit square the optimum is the perimeter, 4.0, after 3! = 6
    evaluations. *)
Example busqueda_exhaustiva_cuadrado :
  exists r,
    busqueda_exhaustiva cuatro_ciudades matriz_cuadrado cero cero = Ok r /\
    longitud_optima r = of_Z 4 /\
    ciclo_optimo r = Some [0; 1; 2; 3] /\
    ciclos_evaluados r = 6.
Proof.
  eexists. split; [vm_compute; reflexivity|].
  vm_compute. repeat split; reflexivity.
Qed.

(** C7. Boundary inputs.  With no city and an empty matrix the search
    raises [IndexError]: the cycle [[0]] is built for the one empty
    permutation and its closing edge reads [matriz_dist[0][0]].  With one
    city and the matrix [[[0.0]]] it returns the cycle [[0]] of length [0.0]
    after one evaluation. *)
Theorem busqueda_exhaustiva_frontera {C : Type} (c : C) (t0 t1 : float) :
  busqueda_exhaustiva (@nil C) [] t0 t1 = Raise IndexError /\
  busqueda_exhaustiva [c] [[cero]] t0 t1 =
  Ok {| ciclo_optimo := Some [0];
        longitud_optima := cero;
        tiempo_ejecucion := sub t1 t0;
        ciclos_evaluados := 1;
        historial := [{| ciclo := [0]; longitud := cero; es_mejor := true;
                         iteracion := 1 |}] |}.
Proof. split; reflexivity. Qed.

(** *** The trace *)

(** Running minimum of the lengths of [l], from [best]. *)
Definition minimo (m : list (list float)) (best : float) (l : list (list Z))
  : float :=
  fold_left (fun b p => if ltb (longitud_de m p) b then longitud_de m p else b)
            l best.

(** The entry of every evaluated cycle, kept or not: [k] cycles were evaluated
    before those of [l] and [best] was the best length among them. *)
Fixpoint entradas (m : list (list float)) (k : Z) (best : float)
    (l : list (list Z)) : list entrada :=
  match l with
  | [] => []
  | p :: t =>
      let L := longitud_de m p in
      let b := ltb L best in
      {| ciclo := 0 :: p; longitud := L; es_mejor := b; iteracion := k + 1 |}
        :: entradas m (k + 1) (if b then L else best) t
  end.

(** The retention test of the loop. *)
Definition conservar (e : entrada) : bool :=
  (iteracion e <=? 1000) || es_mejor e.

Lemma fold_registrar_mejor (m : list (list float)) (l : list (list Z))
    (st : variables) :
  v_mejor_longitud (fold_left (registrar m) l st) =
  minimo m (v_mejor_longitud st) l.
Proof.
  revert st. induction l as [|p t IH]; intros st; cbn [fold_left minimo].
  - reflexivity.
  - rewrite IH. reflexivity.
Qed.

Lemma fold_registrar_historial (m : list (list float)) (l : list (list Z))
    (st : variables) :
  v_historial (fold_left (registrar m) l st) =
  v_historial st ++
    filter conservar (entradas m (v_ciclos_evaluados st) (v_mejor_longitud st) l).
Proof.
  revert st. induction l as [|p t IH]; intros st; cbn [fold_left entradas filter].
  - rewrite app_nil_r. reflexivity.
  - rewrite IH. cbn [registrar v_historial v_ciclos_evaluados v_mejor_longitud].
    unfold conservar at 2. cbn [iteracion es_mejor].
    destruct ((v_ciclos_evaluados st + 1 <=? 1000)
              || ltb (longitud_de m p) (v_mejor_longitud st)).
    + rewrite <- app_assoc. reflexivity.
    + reflexivity.
Qed.

Lemma minimo_snoc (m : list (list float)) (best : float) (l : list (list Z))
    (p : list Z) :
  minimo m best (l ++ [p]) =
  if ltb (longitud_de m p) (minimo m best l) then longitud_de m p
  else minimo m best l.
Proof. unfold minimo. rewrite fold_left_app. reflexivity. Qed.

(** The minimum is a number below the start value and below every length; it
    is the start value or one of the lengths. *)
Lemma minimo_spec (m : list (list float)) (best : float) (l : list (list Z)) :
  is_nan best = false ->
  (forall p, In p l -> is_nan (longitud_de m p) = false) ->
  is_nan (minimo m best l) = false /\
  leb (minimo m best l) best = true /\
  (forall p, In p l -> leb (minimo m best l) (longitud_de m p) = true) /\
  (minimo m best l = best \/ exists p, In p l /\ minimo m best l = longitud_de m p).
Proof.
  intros Hb Hl.
  pose proof (fold_registrar_minimo m l
                {| v_mejor_ciclo := None; v_mejor_longitud := best;
                   v_ciclos_evaluados := 0; v_historial := [] |} Hb Hl) as H.
  cbn zeta in H. rewrite fold_registrar_mejor in H. cbn in H.
  destruct H as (H1 & H2 & H3). repeat (split; [assumption|]).
  clear. revert best. induction l as [|p t IH]; intros best.
  - left. reflexivity.
  - cbn [minimo fold_left]. fold (minimo m) in *.
    change (fold_left _ t ?b) with (minimo m b t).
    destruct (IH (if ltb (longitud_de m p) best then longitud_de m p else best))
      as [E|(q & Hq & E)].
    + rewrite E. destruct (ltb (longitud_de m p) best).
      * right. exists p. split; [left|]; reflexivity.
      * left. reflexivity.
    + right. exists q. split; [right; exact Hq|exact E].
Qed.

Lemma entradas_nth (m : list (list float)) (l : list (list Z)) (k : Z)
    (best : float) (i : nat) :
  nth_error (entradas m k best l) i =
  match nth_error l i with
  | Some p =>
      Some {| ciclo := 0 :: p;
              longitud := longitud_de m p;
              es_mejor := ltb (longitud_de m p) (minimo m best (firstn i l));
              iteracion := k + Z.of_nat i + 1 |}
  | None => None
  end.
Proof.
  revert k best i. induction l as [|p t IH]; intros k best [|i]; cbn [entradas].
  - reflexivity.
  - reflexivity.
  - cbn. repeat f_equal. lia.
  - cbn [nth_error firstn]. rewrite IH. destruct (nth_error t i); [|reflexivity].
    unfold minimo. cbn [fold_left]. do 2 f_equal. lia.
Qed.

Lemma entradas_orden (m : list (list float)) (l : list (list Z)) (k : Z)
    (best : float) :
  StronglySorted (fun e e' => iteracion e < iteracion e') (entradas m k best l) /\
  Forall (fun e => k < iteracion e) (entradas m k best l).
Proof.
  revert k best. induction l as [|p t IH]; intros k best; cbn [entradas].
  - split; constructor.
  - destruct (IH (k + 1) (if ltb (longitud_de m p) best then longitud_de m p
                          else best)) as (Hs & Hf).
    split; constructor; cbn [iteracion]; try lia; try assumption.
    eapply Forall_impl; [|exact Hf]. cbn. intros e He. lia.
Qed.

Lemma StronglySorted_filter {A : Type} (R : A -> A -> Prop) (f : A -> bool)
    (l : list A) :
  StronglySorted R l -> StronglySorted R (filter f l).
Proof.
  induction 1 as [|x l Hl IH Hx]; cbn; [constructor|].
  destruct (f x); [|exact IH]. constructor; [exact IH|].
  rewrite Forall_forall in *. intros y Hy. apply filter_In in Hy. apply Hx, Hy.
Qed.

Lemma firstn_In_nth {A : Type} (l : list A) (i : nat) (x : A) :
  In x (firstn i l) <-> exists j, (j < i)%nat /\ nth_error l j = Some x.
Proof.
  revert i. induction l as [|y t IH]; intros [|i]; cbn.
  - split; [tauto|]. intros (j & Hj & _). lia.
  - split; [tauto|]. intros ([|j] & _ & E); discriminate.
  - split; [tauto|]. intros (j & Hj & _). lia.
  - rewrite IH. split.
    + intros [<-|(j & Hj & E)].
      * exists O. split; [lia|reflexivity].
      * exists (S j). split; [lia|exact E].
    + intros ([|j] & Hj & E); cbn in E.
      * left. congruence.
      * right. exists j. split; [lia|exact E].
Qed.

(** The permutation of the [k]-th evaluated cycle, [k] counted from 1. *)
Definition evaluado (n k : Z) : option (list Z) :=
  if 1 <=? k then nth_error (permutations (range 1 n)) (Z.to_nat (k - 1))
  else None.

(** The [k]-th evaluated cycle is strictly shorter than every cycle evaluated
    before it. *)
Definition supera_anteriores (m : list (list float)) (n k : Z) : Prop :=
  forall j p q,
    1 <= j < k -> evaluado n k = Some p -> evaluado n j = Some q ->
    ltb (longitud_de m p) (longitud_de m q) = true.

Lemma evaluado_inv (n k : Z) (p : list Z) :
  evaluado n k = Some p ->
  1 <= k /\ nth_error (permutations (range 1 n)) (Z.to_nat (k - 1)) = Some p.
Proof.
  unfold evaluado. destruct (Z.leb_spec 1 k); [auto|discriminate].
Qed.

Lemma supera_firstn (m : list (list float)) (n k : Z) (p : list Z) :
  evaluado n k = Some p ->
  supera_anteriores m n k <->
  forall q, In q (firstn (Z.to_nat (k - 1)) (permutations (range 1 n))) ->
            ltb (longitud_de m p) (longitud_de m q) = true.
Proof.
  intros Hp. pose proof (evaluado_inv _ _ _ Hp) as (Hk & _). split.
  - intros H q Hq. apply firstn_In_nth in Hq. destruct Hq as (j & Hj & Eq).
    apply (H (Z.of_nat j + 1) p q); [lia|exact Hp|].
    unfold evaluado. destruct (Z.leb_spec 1 (Z.of_nat j + 1)); [|lia].
    replace (Z.to_nat (Z.of_nat j + 1 - 1)) with j by lia. exact Eq.
  - intros H j p' q Hj Hp' Hq. rewrite Hp in Hp'. injection Hp' as <-.
    apply H, firstn_In_nth. apply evaluado_inv in Hq.
    exists (Z.to_nat (j - 1)). split; [lia|apply Hq].
Qed.

Lemma es_mejor_supera (m : list (list float)) (l : list (list Z)) (i : nat)
    (p : list Z) :
  (forall q, In q l -> is_nan (longitud_de m q) = false) ->
  ltb (longitud_de m p) (minimo m inf (firstn i l)) = true <->
  ltb (longitud_de m p) inf = true /\
  forall q, In q (firstn i l) -> ltb (longitud_de m p) (longitud_de m q) = true.
Proof.
  intros Hl.
  assert (Hl' : forall q, In q (firstn i l) -> is_nan (longitud_de m q) = false).
  { intros q Hq. apply Hl. apply firstn_In_nth in Hq.
    destruct Hq as (j & _ & E). eapply nth_error_In, E. }
  destruct (minimo_spec m inf (firstn i l) eq_refl Hl')
    as (_ & Hinf & Hall & Hatt).
  split.
  - intros H. split.
    + eapply ltb_leb_trans; eauto.
    + intros q Hq. eapply ltb_leb_trans; eauto.
  - intros (H1 & H2). destruct Hatt as [->|(q & Hq & ->)]; auto.
Qed.

(** C5. Trace retention.  On [n >= 1] cities and a finite [n] by [n] matrix:
    the [k]-th evaluated cycle has an entry in ['historial'] exactly when
    [k <= 1000] or the cycle is strictly shorter than every cycle evaluated
    before it; an entry carries the cycle, its length, its evaluation index
    and the new-best flag, raised exactly when the length is below infinity
    and beats every earlier one; entries come in evaluation order. *)
Theorem busqueda_exhaustiva_historial {C : Type} (ciudades : list C)
    (m : list (list float)) (t0 t1 : float) :
  1 <= len ciudades ->
  cuadrada (len ciudades) m = true ->
  finita m = true ->
  exists r,
    busqueda_exhaustiva ciudades m t0 t1 = Ok r /\
    (forall k p, evaluado (len ciudades) k = Some p ->
       (exists e, In e (historial r) /\ iteracion e = k) <->
       (k <= 1000 \/ supera_anteriores m (len ciudades) k)) /\
    (forall e, In e (historial r) ->
       exists p, evaluado (len ciudades) (iteracion e) = Some p /\
                 ciclo e = [0] ++ p /\
                 calcular_longitud_ciclo (ciclo e) m = Ok (longitud e) /\
                 (es_mejor e = true <->
                  ltb (longitud e) inf = true /\
                  supera_anteriores m (len ciudades) (iteracion e))) /\
    StronglySorted (fun e e' => iteracion e < iteracion e') (historial r).
Proof.
  intros Hn Hm Hfin. rewrite (busqueda_exhaustiva_fold _ _ _ _ Hn Hm).
  eexists. split; [reflexivity|]. cbn [historial].
  rewrite fold_registrar_historial.
  cbn [variables_iniciales v_historial v_ciclos_evaluados v_mejor_longitud app].
  set (n := len ciudades) in *. set (perms := permutations (range 1 n)).
  assert (Hperm : forall q, In q perms -> Permutation q (range 1 n)).
  { intros q Hq. apply permutations_In, Hq. }
  assert (Hnan : forall q, In q perms -> is_nan (longitud_de m q) = false).
  { intros q Hq. apply (evaluar_registrar n m q Hn Hm (Hperm q Hq)), Hfin. }
  (* the entries kept, by position in the enumeration *)
  assert (Hin : forall e,
             In e (filter conservar (entradas m 0 inf perms)) <->
             exists i p,
               nth_error perms i = Some p /\ conservar e = true /\
               e = {| ciclo := 0 :: p; longitud := longitud_de m p;
                      es_mejor := ltb (longitud_de m p)
                                      (minimo m inf (firstn i perms));
                      iteracion := 0 + Z.of_nat i + 1 |}).
  { intros e. rewrite filter_In. split.
    - intros (He & Hc). apply In_nth_error in He. destruct He as (i & He).
      rewrite entradas_nth in He. destruct (nth_error perms i) as [p|] eqn:Ep;
        [|discriminate].
      injection He as <-. exists i, p. auto.
    - intros (i & p & Ep & Hc & ->). split; [|exact Hc].
      apply (nth_error_In _ i). rewrite entradas_nth, Ep. reflexivity. }
  split; [|split].
  - (* retention *)
    intros k p Hp. pose proof (evaluado_inv _ _ _ Hp) as (Hk & Ep).
    fold perms in Ep.
    rewrite (supera_firstn m n k p Hp). fold perms.
    pose proof (es_mejor_supera m perms (Z.to_nat (k - 1)) p Hnan) as Hbest.
    split.
    + intros (e & He & Ek). apply Hin in He.
      destruct He as (i & p' & Ep' & Hc & ->). cbn [iteracion] in Ek.
      assert (i = Z.to_nat (k - 1)) by lia. subst i.
      rewrite Ep in Ep'. injection Ep' as <-.
      unfold conservar in Hc. cbn [iteracion es_mejor] in Hc.
      apply orb_true_iff in Hc. destruct Hc as [Hc|Hc].
      * left. apply Z.leb_le in Hc. lia.
      * right. apply Hbest, Hc.
    + intros Hcase.
      exists {| ciclo := 0 :: p; longitud := longitud_de m p;
                es_mejor := ltb (longitud_de m p)
                                (minimo m inf (firstn (Z.to_nat (k - 1)) perms));
                iteracion := 0 + Z.of_nat (Z.to_nat (k - 1)) + 1 |}.
      split; [|cbn; lia]. apply Hin. exists (Z.to_nat (k - 1)), p.
      split; [exact Ep|]. split; [|reflexivity].
      unfold conservar. cbn [iteracion es_mejor]. apply orb_true_iff.
      destruct (Z.leb_spec (0 + Z.of_nat (Z.to_nat (k - 1)) + 1) 1000) as [|Hbig];
        [left; reflexivity|right].
      destruct Hcase as [Hle|Hsup]; [lia|]. apply Hbest. split; [|exact Hsup].
      (* beating the first cycle, [p] is below infinity *)
      destruct (nth_error perms 0) as [q|] eqn:Eq.
      * assert (Hq : In q (firstn (Z.to_nat (k - 1)) perms)).
        { apply firstn_In_nth. exists O. split; [lia|exact Eq]. }
        eapply ltb_leb_trans; [apply Hsup, Hq|].
        apply leb_inf, Hnan. eapply nth_error_In, Eq.
      * apply nth_error_None in Eq.
        assert (Hlt : (Z.to_nat (k - 1) < length perms)%nat)
          by (apply nth_error_Some; congruence).
        lia.
  - (* content *)
    intros e He. apply Hin in He. destruct He as (i & p & Ep & _ & ->).
    cbn [iteracion ciclo longitud es_mejor].
    assert (Hev : evaluado n (0 + Z.of_nat i + 1) = Some p).
    { unfold evaluado. destruct (Z.leb_spec 1 (0 + Z.of_nat i + 1)); [|lia].
      replace (Z.to_nat (0 + Z.of_nat i + 1 - 1)) with i by lia. exact Ep. }
    exists p. split; [exact Hev|]. split; [reflexivity|]. split.
    + apply (evaluar_registrar n m p Hn Hm). eapply Hperm, nth_error_In, Ep.
    + rewrite (supera_firstn m n _ p Hev). fold perms.
      replace (Z.to_nat (0 + Z.of_nat i + 1 - 1)) with i by lia.
      apply es_mejor_supera, Hnan.
  - (* order *)
    apply StronglySorted_filter, entradas_orden.
Qed.

Lemma busqueda_exhaustiva_historial_witness :
  (1 <= len tres_ciudades /\
   cuadrada (len tres_ciudades) matriz_tres = true /\
   finita matriz_tres = true) /\
  exists r,
    busqueda_exhaustiva tres_ciudades matriz_tres cero cero = Ok r /\
    (forall k p, evaluado (len tres_ciudades) k = Some p ->
       (exists e, In e (historial r) /\ iteracion e = k) <->
       (k <= 1000 \/ supera_anteriores matriz_tres (len tres_ciudades) k)) /\
    (forall e, In e (historial r) ->
       exists p, evaluado (len tres_ciudades) (iteracion e) = Some p /\
                 ciclo e = [0] ++ p /\
                 calcular_longitud_ciclo (ciclo e) matriz_tres
                 = Ok (longitud e) /\
                 (es_mejor e = true <->
                  ltb (longitud e) inf = true /\
                  supera_anteriores matriz_tres (len tres_ciudades)
                    (iteracion e))) /\
    StronglySorted (fun e e' => iteracion e < iteracion e') (historial r).
Proof.
  split.
  - split; [vm_compute; discriminate | split; reflexivity].
  - apply busqueda_exhaustiva_historial;
      [vm_compute; discriminate | reflexivity | reflexivity].
Defined.

End ExhaustiveFacts.


(** ** Nearest neighbour *)

Module NearestFacts.
Import PyFacts MatrizFacts FloatFacts NearestNeighbor Ejemplos.

(** [matriz_dist[a][j]], NaN standing for a failed lookup. *)
Definition dist (m : list (list float)) (a j : Z) : float :=
  match getitem m a with
  | Ok fila => match getitem fila j with
               | Ok x => x
               | Raise _ => S754_nan
               end
  | Raise _ => S754_nan
  end.

(** City [j] is marked, respectively not marked, in [visitadas]. *)
Definition visitada (vis : list bool) (j : Z) : Prop :=
  nth_error vis (Z.to_nat j) = Some true.
Definition libre (vis : list bool) (j : Z) : Prop :=
  nth_error vis (Z.to_nat j) = Some false.

(** Among the cities of [candidatas] that are not marked, [c] is the nearest
    to [a], and the first of the nearest ones. *)
Definition mas_cercana (m : list (list float)) (vis : list bool) (a : Z)
    (candidatas : list Z) (c : Z) : Prop :=
  In c candidatas /\ libre vis c /\
  forall j, In j candidatas -> libre vis j ->
    leb (dist m a c) (dist m a j) = true /\
    (j < c -> ltb (dist m a c) (dist m a j) = true).

Section Construccion.

Variable n : Z.
Variable m : list (list float).
Hypothesis Hm : cuadrada n m = true.
Hypothesis Hfin : finita m = true.

Lemma dist_ok (a j : Z) :
  - n <= a < n -> - n <= j < n ->
  exists fila, getitem m a = Ok fila /\ getitem fila j = Ok (dist m a j) /\
               is_finite (dist m a j) = true.
Proof.
  intros Ha Hj.
  destruct (entrada_ok n m a j Hm Ha Hj) as (fila & x & Ef & Ex & _ & Hx).
  exists fila. unfold dist. rewrite Ef, Ex. auto.
Qed.

Lemma marca_definida (vis : list bool) (j : Z) :
  len vis = n -> 0 <= j < n ->
  exists v, getitem vis j = Ok v /\ nth_error vis (Z.to_nat j) = Some v.
Proof.
  intros Hl Hj. destruct (getitem_in vis j) as (v & E & Hv); [lia|].
  rewrite posicion_nonneg in Hv by lia. eauto.
Qed.

(** State of the scan after the cities of [hecho]. *)
Definition inv_buscar (vis : list bool) (a : Z) (hecho : list Z)
    (mejor : float * option Z) : Prop :=
  match snd mejor with
  | None => fst mejor = inf /\ forall j, In j hecho -> visitada vis j
  | Some c => fst mejor = dist m a c /\ mas_cercana m vis a hecho c
  end.

Lemma buscar_spec (vis : list bool) (a : Z) :
  len vis = n -> - n <= a < n ->
  exists mejor, buscar n m vis a = Ok mejor /\ inv_buscar vis a (range 0 n) mejor.
Proof.
  intros Hl Ha. unfold buscar. apply for_each_inv.
  - split; [reflexivity|]. intros j [].
  - intros hecho x resto [md mc] E HI.
    unfold range in E. apply range_desde_split in E.
    destruct E as (Ex & Eh & Hlt). rewrite Z.sub_0_r in Hlt.
    assert (Hx : 0 <= x < n) by lia.
    assert (Hprev : forall j, In j hecho -> 0 <= j < x).
    { intros j Hj. rewrite Eh in Hj. apply range_desde_In in Hj. lia. }
    destruct (marca_definida vis x Hl Hx) as (v & Ev & Hv).
    rewrite Ev. cbn [bind]. destruct v; cbn [negb].
    + (* already visited *)
      eexists. split; [reflexivity|]. unfold inv_buscar in *. cbn [fst snd] in *.
      destruct mc as [c|].
      * destruct HI as (Emd & Hc & Hfree & Hmin). split; [exact Emd|].
        split; [apply in_or_app; auto|]. split; [exact Hfree|].
        intros j Hj Hfj. apply in_app_or in Hj. destruct Hj as [Hj|[<-|[]]].
        -- auto.
        -- unfold libre in Hfj. congruence.
      * destruct HI as (Emd & Hall). split; [exact Emd|].
        intros j Hj. apply in_app_or in Hj. destruct Hj as [Hj|[<-|[]]]; auto.
    + (* not visited: compare its distance *)
      assert (Hxa : - n <= x < n) by lia.
      destruct (dist_ok a x Ha Hxa) as (fila & Ef & Edx & Hdx).
      rewrite Ef. cbn [bind]. rewrite Edx. cbn [bind fst].
      unfold inv_buscar in HI. cbn [fst snd] in HI.
      destruct (ltb (dist m a x) md) eqn:Hcmp.
      * eexists. split; [reflexivity|]. unfold inv_buscar. cbn [fst snd].
        split; [reflexivity|]. split; [apply in_or_app; right; left; auto|].
        split; [exact Hv|].
        intros j Hj Hfj. apply in_app_or in Hj. destruct Hj as [Hj|[<-|[]]].
        -- destruct mc as [c|].
           ++ destruct HI as (-> & _ & _ & Hmin).
              destruct (Hmin j Hj Hfj) as (Hle & _).
              pose proof (ltb_leb_trans _ _ _ Hcmp Hle) as Hlt'.
              split; [apply ltb_leb, Hlt'|intros _; exact Hlt'].
           ++ destruct HI as (_ & Hall). apply Hall in Hj.
              unfold visitada, libre in *. congruence.
        -- split; [apply leb_refl, finite_not_nan, Hdx|lia].
      * eexists. split; [reflexivity|]. unfold inv_buscar. cbn [fst snd].
        destruct mc as [c|].
        -- destruct HI as (-> & Hc & Hfree & Hmin). split; [reflexivity|].
           split; [apply in_or_app; auto|]. split; [exact Hfree|].
           intros j Hj Hfj. apply in_app_or in Hj. destruct Hj as [Hj|[<-|[]]].
           ++ auto.
           ++ apply Hprev in Hc. split; [|lia].
              assert (Hca : - n <= c < n) by lia.
              destruct (dist_ok a c Ha Hca) as (_ & _ & _ & Hdc).
              apply ltb_false_leb; auto using finite_not_nan.
        -- destruct HI as (-> & _).
           rewrite (finite_ltb_inf _ Hdx) in Hcmp. discriminate.
Qed.

(** *** The construction loop *)

Variable s : Z.
Hypothesis Hs : - n <= s < n.

(** Every city of a partial cycle but the first one was, when it was appended,
    the nearest city not yet visited, the lowest index winning ties. *)
Definition voraz (ciclo : list Z) : Prop :=
  forall previo a c resto,
    ciclo = previo ++ a :: c :: resto ->
    0 <= c < n /\
    ~ In c (map (posicion n) (previo ++ [a])) /\
    forall j, 0 <= j < n -> ~ In j (map (posicion n) (previo ++ [a])) ->
      leb (dist m a c) (dist m a j) = true /\
      (j < c -> ltb (dist m a c) (dist m a j) = true).

(** State of the construction after [pasos] iterations. *)
Record inv_ciclo (pasos : Z) (st : variables) : Prop := {
  inv_len_vis : len (v_visitadas st) = n;
  inv_inicio : exists resto,
      v_ciclo st = s :: resto /\ Forall (fun c => 0 <= c < n) resto;
  inv_len : len (v_ciclo st) = pasos + 1;
  inv_nodup : NoDup (map (posicion n) (v_ciclo st));
  inv_marcas : forall j, 0 <= j < n ->
      (In j (map (posicion n) (v_ciclo st)) -> visitada (v_visitadas st) j) /\
      (~ In j (map (posicion n) (v_ciclo st)) -> libre (v_visitadas st) j);
  inv_actual : exists previo, v_ciclo st = previo ++ [v_ciudad_actual st];
  inv_voraz : voraz (v_ciclo st)
}.

Lemma inv_actual_rango (k : Z) (st : variables) :
  inv_ciclo k st -> - n <= v_ciudad_actual st < n.
Proof.
  intros [_ (resto & E & Hr) _ _ _ (previo & E') _].
  assert (H : In (v_ciudad_actual st) (s :: resto)).
  { rewrite <- E, E'. apply in_or_app. right. left. reflexivity. }
  destruct H as [<-|H]; [exact Hs|].
  rewrite Forall_forall in Hr. apply Hr in H. lia.
Qed.

Lemma inv_posiciones (k : Z) (st : variables) (j : Z) :
  inv_ciclo k st -> In j (map (posicion n) (v_ciclo st)) -> 0 <= j < n.
Proof.
  intros [_ (resto & E & Hr) _ _ _ _ _] H. rewrite E in H. cbn in H.
  destruct H as [<-|H].
  - apply posicion_bounds, Hs.
  - apply in_map_iff in H. destruct H as (c & <- & H).
    rewrite Forall_forall in Hr. apply Hr in H.
    rewrite posicion_nonneg; lia.
Qed.

Lemma inv_ciclo_inicial (vis : list bool) :
  setitem (repeat false (Z.to_nat n)) s true = Ok vis ->
  inv_ciclo 0 {| v_visitadas := vis; v_ciclo := [s]; v_longitud_total := cero;
                 v_historial := []; v_ciudad_actual := s |}.
Proof.
  intros E.
  assert (Hlen : len (repeat false (Z.to_nat n)) = n)
    by (unfold len; rewrite repeat_length; lia).
  rewrite setitem_in in E by (rewrite Hlen; exact Hs). injection E as <-.
  rewrite Hlen. pose proof (posicion_bounds n s Hs) as Hp.
  constructor; cbn [v_visitadas v_ciclo v_ciudad_actual].
  - unfold len. rewrite reemplazar_length, repeat_length. lia.
  - exists []. auto.
  - reflexivity.
  - cbn. constructor; [intros []|constructor].
  - intros j Hj. cbn [map In]. split.
    + intros [<-|[]]. apply reemplazar_nth_eq. rewrite repeat_length. lia.
    + intros Hne. unfold libre. rewrite reemplazar_nth_neq.
      * apply nth_error_repeat. lia.
      * intros Eq. apply Hne. left. lia.
  - exists []. reflexivity.
  - intros previo a c resto E. destruct previo as [|x [|y previo]]; discriminate.
Qed.

Lemma NoDup_snoc {A : Type} (l : list A) (x : A) :
  NoDup l -> ~ In x l -> NoDup (l ++ [x]).
Proof.
  intros Hl Hx. apply NoDup_rev in Hl. rewrite <- (rev_involutive (l ++ [x])).
  apply NoDup_rev. rewrite rev_app_distr. cbn. constructor; auto.
  rewrite <- in_rev. exact Hx.
Qed.

Lemma avanzar_inv (k paso : Z) (st : variables) :
  inv_ciclo k st -> k + 1 < n ->
  exists st', avanzar n m paso st = Ok st' /\ inv_ciclo (k + 1) st'.
Proof.
  intros HI Hk. pose proof (inv_actual_rango k st HI) as Ha.
  pose proof (inv_posiciones k st) as Hpos. specialize (fun j => Hpos j HI).
  destruct HI as [Hlv (resto & Ec & Hr) Hl Hnd Hmar (previo0 & Eact) Hvor].
  destruct (buscar_spec (v_visitadas st) (v_ciudad_actual st) Hlv Ha)
    as ([md mc] & Eb & Hb).
  unfold avanzar. rewrite Eb. cbn [bind fst snd].
  unfold inv_buscar in Hb. cbn [fst snd] in Hb. destruct mc as [c|].
  - destruct Hb as (-> & Hc & Hfree & Hmin). apply range_In in Hc.
    assert (Hnew : ~ In c (map (posicion n) (v_ciclo st))).
    { intros Hin. apply (Hmar c Hc) in Hin. unfold visitada, libre in *.
      congruence. }
    rewrite setitem_in by lia. cbn [bind]. eexists. split; [reflexivity|].
    rewrite Hlv, (posicion_nonneg n c) by lia.
    assert (Emap : map (posicion n) (v_ciclo st ++ [c]) =
                   map (posicion n) (v_ciclo st) ++ [c]).
    { rewrite map_app. cbn. rewrite posicion_nonneg by lia. reflexivity. }
    constructor; cbn [v_visitadas v_ciclo v_ciudad_actual].
    + unfold len in *. rewrite reemplazar_length. exact Hlv.
    + exists (resto ++ [c]). rewrite Ec. split; [reflexivity|].
      apply Forall_app. split; [exact Hr|]. constructor; [lia|constructor].
    + rewrite len_app, Hl. reflexivity.
    + rewrite Emap. apply NoDup_snoc; assumption.
    + intros j Hj. rewrite Emap. destruct (Z.eq_dec j c) as [->|Hne].
      * split.
        -- intros _. apply reemplazar_nth_eq. unfold len in Hlv. lia.
        -- intros H. exfalso. apply H, in_or_app. right. left. reflexivity.
      * assert (Hneq : Z.to_nat j <> Z.to_nat c) by lia.
        unfold visitada, libre. rewrite reemplazar_nth_neq by exact Hneq. split.
        -- intros H. apply in_app_or in H. destruct H as [H|[H|[]]]; [|lia].
           apply (Hmar j Hj), H.
        -- intros H. apply (Hmar j Hj). intros H'. apply H, in_or_app. auto.
    + exists (v_ciclo st). reflexivity.
    + intros previo a c' resto' E.
      destruct resto' as [|y r].
      * (* the pair is the last step *)
        change (previo ++ [a; c']) with (previo ++ [a] ++ [c']) in E.
        rewrite app_assoc in E. apply app_inj_tail in E. destruct E as (E & <-).
        assert (Ea : a = v_ciudad_actual st).
        { rewrite Eact in E. apply app_inj_tail in E. symmetry. apply E. }
        subst a. rewrite <- E. split; [exact Hc|]. split; [exact Hnew|].
        intros j Hj Hnj. apply Hmin.
        -- apply range_In. lia.
        -- apply (Hmar j Hj), Hnj.
      * (* an earlier step *)
        destruct (exists_last (l := y :: r)) as (r' & z' & Er); [discriminate|].
        rewrite Er in E.
        change (previo ++ a :: c' :: r' ++ [z'])
          with (previo ++ (a :: c' :: r') ++ [z']) in E.
        rewrite app_assoc in E. apply app_inj_tail in E. destruct E as (E & _).
        apply (Hvor previo a c' r' E).
  - (* no city left: impossible before the last step *)
    exfalso. destruct Hb as (_ & Hall).
    assert (Hincl : incl (range 0 n) (map (posicion n) (v_ciclo st))).
    { intros j Hj. pose proof Hj as Hj'. apply range_In in Hj'.
      destruct (in_dec Z.eq_dec j (map (posicion n) (v_ciclo st))) as [H|H];
        [exact H|].
      apply (Hmar j Hj') in H. apply Hall in Hj. unfold visitada, libre in *.
      congruence. }
    apply NoDup_incl_length in Hincl; [|apply range_desde_NoDup].
    rewrite range_length, length_map in Hincl. unfold len in Hl. lia.
Qed.

(** What the construction guarantees about the cycle it returns. *)
Record ciclo_construido (c : list Z) : Prop := {
  cc_len : len c = n;
  cc_inicio : exists resto, c = s :: resto /\ Forall (fun x => 0 <= x < n) resto;
  cc_nodup : NoDup (map (posicion n) c);
  cc_voraz : voraz c
}.

Lemma vecino_mas_cercano_construye {C : Type} (ciudades : list C)
    (t0 t1 : float) :
  len ciudades = n ->
  exists r, vecino_mas_cercano ciudades m s t0 t1 = Ok r /\
            ciclo_construido (ciclo r).
Proof.
  intros Hn. unfold vecino_mas_cercano. rewrite Hn.
  assert (Hlen : len (repeat false (Z.to_nat n)) = n)
    by (unfold len; rewrite repeat_length; lia).
  pose proof (setitem_in (repeat false (Z.to_nat n)) s true) as Eset.
  rewrite Hlen in Eset. specialize (Eset Hs).
  rewrite Eset. cbn [bind].
  destruct (for_each_inv (fun hecho st => inv_ciclo (len hecho) st)
              (avanzar n m) (range 0 (n - 1))
              {| v_visitadas :=
                   reemplazar (repeat false (Z.to_nat n))
                     (Z.to_nat (posicion n s)) true;
                 v_ciclo := [s]; v_longitud_total := cero;
                 v_historial := []; v_ciudad_actual := s |})
    as (st & Est & HI).
  - apply inv_ciclo_inicial. exact Eset.
  - intros hecho x resto st E HI.
    assert (Hk : len hecho + 1 < n).
    { apply (f_equal (@length Z)) in E.
      rewrite range_length, length_app in E. cbn in E. unfold len. lia. }
    destruct (avanzar_inv _ x st HI Hk) as (st' & E' & HI').
    exists st'. split; [exact E'|]. rewrite len_app. exact HI'.
  - rewrite Est. cbn [bind].
    pose proof (inv_actual_rango _ st HI) as Ha.
    destruct (dist_ok (v_ciudad_actual st) s Ha Hs) as (fila & Ef & Ed & _).
    rewrite Ef. cbn [bind]. rewrite Ed. cbn [bind].
    eexists. split; [reflexivity|]. cbn [ciclo].
    destruct HI as [_ Hini Hl Hnd _ _ Hvor]. constructor; auto.
    rewrite Hl. unfold len. rewrite range_length. lia.
Qed.

End Construccion.

Lemma posiciones_no_negativas (n s : Z) (resto : list Z) :
  0 <= s -> Forall (fun x => 0 <= x < n) resto ->
  map (posicion n) (s :: resto) = s :: resto.
Proof.
  intros Hs Hr. cbn. rewrite posicion_nonneg by exact Hs. f_equal.
  induction Hr as [|x t Hx _ IH]; cbn; [reflexivity|].
  rewrite posicion_nonneg by lia. f_equal. exact IH.
Qed.

(** A negative subscript in range reads the item [len] places further. *)
Lemma getitem_negativo {A : Type} (l : list A) (i : Z) :
  - len l <= i < 0 -> getitem l i = getitem l (len l + i).
Proof.
  intros H. unfold getitem, posicion.
  destruct (Z.ltb_spec i 0); [|lia].
  destruct (Z.ltb_spec (len l + i) 0); [lia|].
  rewrite (Z.add_comm i). reflexivity.
Qed.

(** C3. On [n >= 1] cities, a finite [n] by [n] matrix and a start index in
    [0, n), the heuristic returns a cycle that is a permutation of
    [0 .. n-1], each index once, beginning with the start index. *)
Theorem vecino_mas_cercano_permutacion {C : Type} (ciudades : list C)
    (m : list (list float)) (ciudad_inicio : Z) (t0 t1 : float) :
  1 <= len ciudades ->
  cuadrada (len ciudades) m = true ->
  finita m = true ->
  0 <= ciudad_inicio < len ciudades ->
  exists r,
    vecino_mas_cercano ciudades m ciudad_inicio t0 t1 = Ok r /\
    Permutation (ciclo r) (range 0 (len ciudades)) /\
    NoDup (ciclo r) /\
    hd_error (ciclo r) = Some ciudad_inicio.
Proof.
  intros _ Hm Hfin Hs.
  destruct (vecino_mas_cercano_construye (len ciudades) m Hm Hfin ciudad_inicio
              ltac:(lia) ciudades t0 t1 eq_refl) as (r & E & [Hl Hini Hnd _]).
  exists r. split; [exact E|]. destruct Hini as (resto & Ec & Hr).
  rewrite Ec in *. rewrite (posiciones_no_negativas _ _ _ (proj1 Hs) Hr) in Hnd.
  split; [|split; [exact Hnd|reflexivity]].
  apply NoDup_Permutation_bis; [exact Hnd| |].
  - rewrite range_length. unfold len in *. lia.
  - intros x [<-|Hx]; apply range_In; [lia|].
    rewrite Forall_forall in Hr. apply Hr, Hx.
Qed.

Lemma vecino_mas_cercano_permutacion_witness :
  (1 <= len tres_ciudades /\
   cuadrada (len tres_ciudades) matriz_tres = true /\
   finita matriz_tres = true /\
   0 <= 1 < len tres_ciudades) /\
  exists r,
    vecino_mas_cercano tres_ciudades matriz_tres 1 cero cero = Ok r /\
    Permutation (ciclo r) (range 0 (len tres_ciudades)) /\
    NoDup (ciclo r) /\
    hd_error (ciclo r) = Some 1.
Proof.
  split.
  - split; [vm_compute; discriminate|]. split; [reflexivity|].
    split; [reflexivity|]. split; [vm_compute; discriminate|reflexivity].
  - apply vecino_mas_cercano_permutacion;
      [vm_compute; discriminate | reflexivity | reflexivity |].
    split; [vm_compute; discriminate|reflexivity].
Defined.

(** C4. Tie-break rule.  On a finite [n] by [n] matrix and a start index in
    [0, n), the heuristic returns a cycle of [n] entries that begins with the
    start index, one city appended per step; wherever that cycle goes from a
    city [a] to a city [c], [c] had not been visited and every city [j] not
    visited by then is at least as far from [a] as [c] is, and strictly
    farther when [j < c]: the appended city is the nearest unvisited one, the
    lowest index among equidistant ones. *)
Theorem vecino_mas_cercano_desempate {C : Type} (ciudades : list C)
    (m : list (list float)) (ciudad_inicio : Z) (t0 t1 : float) :
  cuadrada (len ciudades) m = true ->
  finita m = true ->
  0 <= ciudad_inicio < len ciudades ->
  exists r,
    vecino_mas_cercano ciudades m ciudad_inicio t0 t1 = Ok r /\
    len (ciclo r) = len ciudades /\
    hd_error (ciclo r) = Some ciudad_inicio /\
    forall previo a c resto,
      ciclo r = previo ++ a :: c :: resto ->
      0 <= c < len ciudades /\
      ~ In c (previo ++ [a]) /\
      forall j, 0 <= j < len ciudades -> ~ In j (previo ++ [a]) ->
        leb (dist m a c) (dist m a j) = true /\
        (j < c -> ltb (dist m a c) (dist m a j) = true).
Proof.
  intros Hm Hfin Hs.
  destruct (vecino_mas_cercano_construye (len ciudades) m Hm Hfin ciudad_inicio
              ltac:(lia) ciudades t0 t1 eq_refl) as (r & E & [Hl Hini _ Hvor]).
  exists r. split; [exact E|]. split; [exact Hl|].
  split; [destruct Hini as (resto0 & -> & _); reflexivity|].
  intros previo a c resto Ec.
  destruct Hini as (resto0 & Ec0 & Hr).
  assert (Eid : map (posicion (len ciudades)) (previo ++ [a]) = previo ++ [a]).
  { assert (Hall : Forall (fun x => 0 <= x < len ciudades) (ciclo r)).
    { rewrite Ec0. constructor; [exact Hs|exact Hr]. }
    rewrite Ec in Hall.
    replace (previo ++ a :: c :: resto) with ((previo ++ [a]) ++ c :: resto)
      in Hall by (rewrite <- app_assoc; reflexivity).
    apply Forall_app in Hall. destruct Hall as (Hall & _).
    induction Hall as [|x t Hx _ IH]; cbn; [reflexivity|].
    rewrite posicion_nonneg by lia. f_equal. exact IH. }
  specialize (Hvor previo a c resto Ec). rewrite Eid in Hvor. exact Hvor.
Qed.

Lemma vecino_mas_cercano_desempate_witness :
  (cuadrada (len tres_ciudades) matriz_tres = true /\
   finita matriz_tres = true /\
   0 <= 1 < len tres_ciudades) /\
  exists r,
    vecino_mas_cercano tres_ciudades matriz_tres 1 cero cero = Ok r /\
    len (ciclo r) = len tres_ciudades /\
    hd_error (ciclo r) = Some 1 /\
    forall previo a c resto,
      ciclo r = previo ++ a :: c :: resto ->
      0 <= c < len tres_ciudades /\
      ~ In c (previo ++ [a]) /\
      forall j, 0 <= j < len tres_ciudades -> ~ In j (previo ++ [a]) ->
        leb (dist matriz_tres a c) (dist matriz_tres a j) = true /\
        (j < c -> ltb (dist matriz_tres a c) (dist matriz_tres a j) = true).
Proof.
  split.
  - split; [reflexivity|]. split; [reflexivity|].
    split; [vm_compute; discriminate|reflexivity].
  - apply vecino_mas_cercano_desempate; [reflexivity | reflexivity |].
    split; [vm_compute; discriminate|reflexivity].
Defined.

(** From city 1 of the three-city instance, cities 0 and 2 are both at
    distance 1: the lower index is taken. *)
Example desempate_tres_ciudades :
  exists r, vecino_mas_cercano tres_ciudades matriz_tres 1 cero cero = Ok r /\
            ciclo r = [1; 0; 2].
Proof.
  eexists. split; [vm_compute; reflexivity|].
  vm_compute. repeat split; reflexivity.
Qed.

(** On the unit square the heuristic from city 0 also finds the perimeter. *)
Example vecino_mas_cercano_cuadrado :
  exists r,
    vecino_mas_cercano cuatro_ciudades matriz_cuadrado 0 cero cero = Ok r /\
    ciclo r = [0; 1; 2; 3] /\ longitud r = of_Z 4.
Proof.
  eexists. split; [vm_compute; reflexivity|].
  vm_compute. repeat split; reflexivity.
Qed.

(** An infinite row leaves [mejor_ciudad] at [None]: the next subscript raises
    [TypeError]. *)
Example vecino_mas_cercano_infinito :
  vecino_mas_cercano tres_ciudades
    [[cero; inf; inf]; [of_Z 1; cero; of_Z 1]; [of_Z 2; of_Z 1; cero]]
    0 cero cero
  = Raise TypeError.
Proof. reflexivity. Qed.

(** C6, as the spec states it, fails: the start index [-1] is outside
    [0, 3) and the heuristic returns. *)
Lemma vecino_mas_cercano_indice_contraejemplo :
  ~ ((exists e, vecino_mas_cercano tres_ciudades matriz_tres (-1) cero cero
                = Raise e)
     <-> ~ (0 <= -1 < len tres_ciudades)).
Proof.
  intros [_ H]. destruct H as (e & E); [lia|]. vm_compute in E. discriminate.
Qed.

(** C6, amended.  On a finite [n] by [n] matrix the heuristic raises
    [IndexError] exactly when the start index is outside [-n, n); the failing
    statement is then the first subscript, [visitadas[ciudad_inicio] = True],
    before the construction loop.  For a start index in [-n, n), hence in
    [0, n), it returns. *)
Theorem vecino_mas_cercano_indice {C : Type} (ciudades : list C)
    (m : list (list float)) (ciudad_inicio : Z) (t0 t1 : float) :
  cuadrada (len ciudades) m = true ->
  finita m = true ->
  (vecino_mas_cercano ciudades m ciudad_inicio t0 t1 = Raise IndexError <->
   ~ (- len ciudades <= ciudad_inicio < len ciudades)) /\
  (~ (- len ciudades <= ciudad_inicio < len ciudades) ->
   setitem (repeat false (Z.to_nat (len ciudades))) ciudad_inicio true
   = Raise IndexError) /\
  (- len ciudades <= ciudad_inicio < len ciudades ->
   exists r, vecino_mas_cercano ciudades m ciudad_inicio t0 t1 = Ok r).
Proof.
  intros Hm Hfin.
  assert (Hlen : len (repeat false (Z.to_nat (len ciudades))) = len ciudades).
  { unfold len. rewrite repeat_length. lia. }
  assert (Hout : ~ (- len ciudades <= ciudad_inicio < len ciudades) ->
                 setitem (repeat false (Z.to_nat (len ciudades))) ciudad_inicio
                   true = Raise IndexError).
  { intros H. apply setitem_out. rewrite Hlen. exact H. }
  assert (Hin : - len ciudades <= ciudad_inicio < len ciudades ->
                exists r, vecino_mas_cercano ciudades m ciudad_inicio t0 t1
                          = Ok r).
  { intros Hs.
    destruct (vecino_mas_cercano_construye (len ciudades) m Hm Hfin
                ciudad_inicio Hs ciudades t0 t1 eq_refl) as (r & E & _).
    eauto. }
  split; [|split; assumption]. split.
  - intros E Hs. destruct (Hin Hs) as (r & E'). congruence.
  - intros H. unfold vecino_mas_cercano. rewrite (Hout H). reflexivity.
Qed.

Lemma vecino_mas_cercano_indice_witness :
  (cuadrada (len tres_ciudades) matriz_tres = true /\
   finita matriz_tres = true) /\
  (vecino_mas_cercano tres_ciudades matriz_tres 3 cero cero = Raise IndexError
   <-> ~ (- len tres_ciudades <= 3 < len tres_ciudades)) /\
  (~ (- len tres_ciudades <= 3 < len tres_ciudades) ->
   setitem (repeat false (Z.to_nat (len tres_ciudades))) 3 true
   = Raise IndexError) /\
  (- len tres_ciudades <= 3 < len tres_ciudades ->
   exists r, vecino_mas_cercano tres_ciudades matriz_tres 3 cero cero = Ok r).
Proof.
  split.
  - split; reflexivity.
  - apply vecino_mas_cercano_indice; reflexivity.
Defined.

(** C10. On [n >= 1] cities, a finite [n] by [n] matrix and a start index
    [s] in [-n, -1], the heuristic raises nothing and returns a cycle of [n]
    entries that begins with [s] itself.  The row read for [s] is that of city
    [n + s]; the other entries are distinct cities of [0 .. n-1], and city
    [n + s] is not among the entries. *)
Theorem vecino_mas_cercano_inicio_negativo {C : Type} (ciudades : list C)
    (m : list (list float)) (ciudad_inicio : Z) (t0 t1 : float) :
  1 <= len ciudades ->
  cuadrada (len ciudades) m = true ->
  finita m = true ->
  - len ciudades <= ciudad_inicio <= -1 ->
  exists r resto,
    vecino_mas_cercano ciudades m ciudad_inicio t0 t1 = Ok r /\
    ciclo r = ciudad_inicio :: resto /\
    len (ciclo r) = len ciudades /\
    getitem m ciudad_inicio = getitem m (len ciudades + ciudad_inicio) /\
    Forall (fun x => 0 <= x < len ciudades) resto /\
    NoDup resto /\
    ~ In (len ciudades + ciudad_inicio) (ciclo r).
Proof.
  intros _ Hm Hfin Hs.
  destruct (vecino_mas_cercano_construye (len ciudades) m Hm Hfin ciudad_inicio
              ltac:(lia) ciudades t0 t1 eq_refl) as (r & E & [Hl Hini Hnd _]).
  destruct Hini as (resto & Ec & Hr). exists r, resto.
  rewrite Ec in Hnd. cbn [map] in Hnd.
  assert (Eid : map (posicion (len ciudades)) resto = resto).
  { clear - Hr. induction Hr as [|x t Hx _ IH]; cbn; [reflexivity|].
    rewrite posicion_nonneg by lia. f_equal. exact IH. }
  rewrite Eid in Hnd. apply NoDup_cons_iff in Hnd. destruct Hnd as (Hni & Hnd).
  assert (Epos : posicion (len ciudades) ciudad_inicio
                 = len ciudades + ciudad_inicio).
  { unfold posicion. destruct (Z.ltb_spec ciudad_inicio 0); lia. }
  rewrite Epos in Hni.
  split; [exact E|]. split; [exact Ec|]. split; [exact Hl|]. split.
  - rewrite <- (cuadrada_len _ _ Hm). apply getitem_negativo.
    rewrite (cuadrada_len _ _ Hm). lia.
  - split; [exact Hr|]. split; [exact Hnd|].
    rewrite Ec. intros [H|H]; [lia|auto].
Qed.

Lemma vecino_mas_cercano_inicio_negativo_witness :
  (1 <= len tres_ciudades /\
   cuadrada (len tres_ciudades) matriz_tres = true /\
   finita matriz_tres = true /\
   - len tres_ciudades <= -1 <= -1) /\
  exists r resto,
    vecino_mas_cercano tres_ciudades matriz_tres (-1) cero cero = Ok r /\
    ciclo r = -1 :: resto /\
    len (ciclo r) = len tres_ciudades /\
    getitem matriz_tres (-1) = getitem matriz_tres (len tres_ciudades + -1) /\
    Forall (fun x => 0 <= x < len tres_ciudades) resto /\
    NoDup resto /\
    ~ In (len tres_ciudades + -1) (ciclo r).
Proof.
  split.
  - split; [vm_compute; discriminate|]. split; [reflexivity|].
    split; [reflexivity|]. split; vm_compute; discriminate.
  - apply vecino_mas_cercano_inicio_negativo;
      [vm_compute; discriminate | reflexivity | reflexivity |].
    split; vm_compute; discriminate.
Defined.

End NearestFacts.

(** ** Comparison report *)

Module ComparadorFacts.
Import Comparador.

Lemma positivo_no_cero (x : float) : ltb cero x = true -> eqb x cero = false.
Proof. destruct x as [s|s| |s mx ex]; try destruct s; cbn; congruence. Qed.

(** The speed ratio never raises: the division is guarded by [tiempo_nn > 0]. *)
Lemma speedup_definido (tiempo_exhaustivo tiempo_nn : float) :
  exists v, (if ltb cero tiempo_nn then truediv tiempo_exhaustivo tiempo_nn
             else Ok inf) = Ok v.
Proof.
  destruct (ltb cero tiempo_nn) eqn:E; [|eauto].
  unfold truediv. rewrite (positivo_no_cero _ E). eauto.
Qed.

(** Two result records with lengths 10.0 and 12.0. *)
Definition exhaustivo_diez : ExhaustiveSearch.resultado :=
  {| ExhaustiveSearch.ciclo_optimo := Some [0; 1; 2];
     ExhaustiveSearch.longitud_optima := of_Z 10;
     ExhaustiveSearch.tiempo_ejecucion := of_Z 3;
     ExhaustiveSearch.ciclos_evaluados := 2;
     ExhaustiveSearch.historial := [] |}.
Definition nn_doce : NearestNeighbor.resultado :=
  {| NearestNeighbor.ciclo := [0; 2; 1];
     NearestNeighbor.longitud := of_Z 12;
     NearestNeighbor.tiempo_ejecucion := of_Z 1;
     NearestNeighbor.historial := [] |}.

(** C9. Gap contract.  When the exhaustive length is not zero,
    [comparar_metodos] returns with ['gap_porcentaje'] equal to
    [((nn - optima) / optima) * 100], the operations being those of binary64;
    lengths 10.0 and 12.0 give exactly 20.0.  When the exhaustive length
    equals zero it raises [ZeroDivisionError]. *)
Theorem comparar_metodos_gap {C : Type}
    (resultado_exhaustivo : ExhaustiveSearch.resultado)
    (resultado_nn : NearestNeighbor.resultado) (ciudades : list C) :
  let optima := ExhaustiveSearch.longitud_optima resultado_exhaustivo in
  let nn := NearestNeighbor.longitud resultado_nn in
  (eqb optima cero = false ->
   exists c, comparar_metodos resultado_exhaustivo resultado_nn ciudades = Ok c /\
             gap_porcentaje c = mul (fdiv (sub nn optima) optima) (of_Z 100)) /\
  (optima = of_Z 10 -> nn = of_Z 12 ->
   exists c, comparar_metodos resultado_exhaustivo resultado_nn ciudades = Ok c /\
             gap_porcentaje c = of_Z 20) /\
  (eqb optima cero = true ->
   comparar_metodos resultado_exhaustivo resultado_nn ciudades
   = Raise ZeroDivisionError).
Proof.
  intros optima nn.
  assert (Hno : eqb optima cero = false ->
                exists c,
                  comparar_metodos resultado_exhaustivo resultado_nn ciudades
                  = Ok c /\
                  gap_porcentaje c
                  = mul (fdiv (sub nn optima) optima) (of_Z 100)).
  { intros H. unfold comparar_metodos, calcular_gap, truediv at 1.
    fold optima nn. rewrite H. cbn [bind].
    destruct (speedup_definido
                (ExhaustiveSearch.tiempo_ejecucion resultado_exhaustivo)
                (NearestNeighbor.tiempo_ejecucion resultado_nn)) as (v & ->).
    cbn [bind]. eexists. split; reflexivity. }
  split; [exact Hno|]. split.
  - intros Ho En. destruct Hno as (c & Ec & Eg).
    + rewrite Ho. reflexivity.
    + exists c. split; [exact Ec|]. rewrite Eg, Ho, En. reflexivity.
  - intros H. unfold comparar_metodos, calcular_gap, truediv at 1.
    fold optima. rewrite H. reflexivity.
Qed.

Lemma comparar_metodos_gap_witness :
  (eqb (ExhaustiveSearch.longitud_optima exhaustivo_diez) cero = false /\
   ExhaustiveSearch.longitud_optima exhaustivo_diez = of_Z 10 /\
   NearestNeighbor.longitud nn_doce = of_Z 12) /\
  exists c, comparar_metodos exhaustivo_diez nn_doce [tt; tt; tt] = Ok c /\
            gap_porcentaje c = of_Z 20.
Proof.
  split.
  - split; [reflexivity|split; reflexivity].
  - apply (comparar_metodos_gap exhaustivo_diez nn_doce [tt; tt; tt]);
      reflexivity.
Defined.

(** Exhaustive length [0.0]: the report raises. *)
Example comparar_metodos_cero :
  comparar_metodos
    {| ExhaustiveSearch.ciclo_optimo := Some [0];
       ExhaustiveSearch.longitud_optima := cero;
       ExhaustiveSearch.tiempo_ejecucion := of_Z 1;
       ExhaustiveSearch.ciclos_evaluados := 1;
       ExhaustiveSearch.historial := [] |}
    {| NearestNeighbor.ciclo := [0];
       NearestNeighbor.longitud := cero;
       NearestNeighbor.tiempo_ejecucion := of_Z 1;
       NearestNeighbor.historial := [] |}
    [tt]
  = Raise ZeroDivisionError.
Proof. reflexivity. Qed.

End ComparadorFacts.

(** ** Distance matrix *)

Module DistanceFacts.
Import Stdlib.Strings.String.
Import PyFloat PyFacts DistanceCalculator.

(** *** Signs of rounded results *)

(** Rounding does not look at the sign. *)
Lemma binary_round_aux_opp (s : bool) (m e : Z) (l : location) :
  binary_round_aux prec emax (negb s) m e l
  = SFopp (binary_round_aux prec emax s m e l).
Proof.
  unfold binary_round_aux.
  destruct (shr_fexp prec emax m e l) as [mrs' e'].
  destruct (shr_fexp prec emax _ e' loc_Exact) as [mrs'' e''].
  destruct (shr_m mrs''); [reflexivity| |reflexivity].
  destruct (e'' <=? emax - prec); reflexivity.
Qed.

Lemma binary_round_opp (s : bool) (m : positive) (e : Z) :
  binary_round prec emax (negb s) m e = SFopp (binary_round prec emax s m e).
Proof.
  unfold binary_round. destruct (shl_align _ _ _) as [mz ez].
  apply binary_round_aux_opp.
Qed.

(** Equal, or equal up to the sign. *)
Definition salvo_signo (x y : float) : Prop := y = x \/ y = SFopp x.

(** [y - x] is [x - y] with the other sign; both are [0.0] when [x = y]. *)
Lemma sub_salvo_signo (x y : float) : salvo_signo (sub x y) (sub y x).
Proof.
  unfold salvo_signo.
  destruct x as [sx|sx| |sx mx ex], y as [sy|sy| |sy my ey];
    try (destruct sx, sy; cbn; auto; fail);
    try (destruct sx; cbn; auto; fail);
    try (destruct sy; cbn; auto; fail);
    try (cbn; auto; fail).
  unfold sub, SFsub. rewrite (Z.min_comm ey ex).
  set (ez := Z.min ex ey).
  set (a := cond_Zopp sx (Zpos (fst (shl_align mx ex ez)))).
  set (b := cond_Zopp sy (Zpos (fst (shl_align my ey ez)))).
  replace (b - a) with (- (a - b)) by lia.
  destruct (a - b) as [|p|p]; cbn [Z.opp binary_normalize].
  - left. reflexivity.
  - right. apply (binary_round_opp false).
  - right. apply (binary_round_opp true).
Qed.

Lemma fdiv_opp (x y : float) : fdiv (SFopp x) y = SFopp (fdiv x y).
Proof.
  destruct x as [sx|sx| |sx mx ex], y as [sy|sy| |sy my ey];
    try (destruct sx, sy; reflexivity);
    try (destruct sx; reflexivity);
    try reflexivity.
  unfold fdiv, SFdiv, SFopp.
  destruct (SFdiv_core_binary prec emax (Zpos mx) ex (Zpos my) ey)
    as [[mz ez] lz].
  replace (xorb (negb sx) sy) with (negb (xorb sx sy))
    by (destruct sx, sy; reflexivity).
  apply binary_round_aux_opp.
Qed.

Lemma fdiv_salvo_signo (x y d : float) :
  salvo_signo x y -> salvo_signo (fdiv x d) (fdiv y d).
Proof.
  intros [->| ->]; [left; reflexivity|right; apply fdiv_opp].
Qed.

Lemma mul_comm (x y : float) : mul x y = mul y x.
Proof.
  destruct x as [sx|sx| |sx mx ex], y as [sy|sy| |sy my ey];
    try (destruct sx, sy; reflexivity);
    try (destruct sx; reflexivity);
    try (destruct sy; reflexivity);
    try reflexivity.
  unfold mul, SFmul.
  rewrite (xorb_comm sy sx), (Pos.mul_comm my mx), (Z.add_comm ey ex).
  reflexivity.
Qed.

(** Python's [==] holds between a float and itself unless it is NaN. *)
Lemma eqb_refl (x : float) : is_nan x = false -> eqb x x = true.
Proof.
  unfold eqb, SFeqb. destruct x as [s|s| |s m e]; cbn; try destruct s;
    try reflexivity; try discriminate; intros _;
    rewrite Z.compare_refl, ?Pos.compare_cont_refl, ?Pos.compare_refl;
    reflexivity.
Qed.

(** *** The metrics *)

(** What the statements below need of the C library: squaring ignores the
    sign of the base, and the sine is odd. *)
Definition potencia_par (lm : libm) : Prop :=
  forall x, float_pow lm (SFopp x) (of_Z 2) = float_pow lm x (of_Z 2).

Definition seno_impar (lm : libm) : Prop :=
  forall x, math_sin lm (SFopp x) = (y <- math_sin lm x ;; Ok (SFopp y)).

Lemma float_pow_salvo_signo (lm : libm) (x y : float) :
  potencia_par lm -> salvo_signo x y ->
  float_pow lm y (of_Z 2) = float_pow lm x (of_Z 2).
Proof. intros Hp [->| ->]; [reflexivity|apply Hp]. Qed.

Lemma math_sin_salvo_signo (lm : libm) (x y s : float) :
  seno_impar lm -> salvo_signo x y -> math_sin lm x = Ok s ->
  exists s', math_sin lm y = Ok s' /\ salvo_signo s s'.
Proof.
  intros Hs [->| ->] E.
  - exists s. split; [exact E|left; reflexivity].
  - exists (SFopp s). rewrite Hs, E. split; [reflexivity|right; reflexivity].
Qed.

(** A haversine term that rounds to [1.0000000000000002], the double next
    above [1.0], makes the second square root a domain error. *)
Example math_sqrt_dominio :
  math_sqrt (sub (of_Z 1) (S754_finite false 4503599627370497 (-52)))
  = Raise ValueError.
Proof. vm_compute. reflexivity. Qed.

Lemma truediv_dos (x : float) : truediv x (of_Z 2) = Ok (fdiv x (of_Z 2)).
Proof. reflexivity. Qed.

Lemma distancia_euclidiana_sim (lm : libm) (c1 c2 : float * float) :
  potencia_par lm ->
  distancia_euclidiana lm c2 c1 = distancia_euclidiana lm c1 c2.
Proof.
  intros Hp. destruct c1 as (lat1, lon1), c2 as (lat2, lon2).
  unfold distancia_euclidiana.
  rewrite (float_pow_salvo_signo lm _ _ Hp (sub_salvo_signo lat1 lat2)).
  rewrite (float_pow_salvo_signo lm _ _ Hp (sub_salvo_signo lon1 lon2)).
  reflexivity.
Qed.

Lemma distancia_haversine_sim (lm : libm) (c1 c2 : float * float) (x : float) :
  potencia_par lm -> seno_impar lm ->
  distancia_haversine lm c1 c2 = Ok x -> distancia_haversine lm c2 c1 = Ok x.
Proof.
  intros Hp Hs. unfold distancia_haversine.
  set (lat1 := math_radians (fst c1)). set (lon1 := math_radians (snd c1)).
  set (lat2 := math_radians (fst c2)). set (lon2 := math_radians (snd c2)).
  rewrite !truediv_dos. cbn [bind].
  pose proof (fdiv_salvo_signo _ _ (of_Z 2) (sub_salvo_signo lat2 lat1)) as H1.
  pose proof (fdiv_salvo_signo _ _ (of_Z 2) (sub_salvo_signo lon2 lon1)) as H2.
  destruct (math_sin lm (fdiv (sub lat2 lat1) (of_Z 2))) as [s1|e] eqn:E1;
    [|discriminate].
  destruct (math_sin_salvo_signo lm _ _ _ Hs H1 E1) as (s1' & -> & Hs1).
  cbn [bind]. rewrite (float_pow_salvo_signo lm _ _ Hp Hs1).
  destruct (float_pow lm s1 (of_Z 2)) as [q1|e]; [|discriminate]. cbn [bind].
  destruct (math_cos lm lat1) as [k1|e]; [|discriminate]. cbn [bind].
  destruct (math_cos lm lat2) as [k2|e]; [|discriminate]. cbn [bind].
  destruct (math_sin lm (fdiv (sub lon2 lon1) (of_Z 2))) as [s2|e] eqn:E2;
    [|discriminate].
  destruct (math_sin_salvo_signo lm _ _ _ Hs H2 E2) as (s2' & -> & Hs2).
  cbn [bind]. rewrite (float_pow_salvo_signo lm _ _ Hp Hs2).
  rewrite (mul_comm k2 k1). intros H. exact H.
Qed.

(** Either supported metric gives the same value in both directions. *)
Lemma metodos_simetricos (lm : libm) (metodo : String.string) :
  potencia_par lm -> seno_impar lm ->
  (metodo = "euclid" \/ metodo = "haversine")%string ->
  exists func,
    metodos lm metodo = Some func /\
    forall c1 c2 x, func c1 c2 = Ok x -> func c2 c1 = Ok x.
Proof.
  intros Hp Hs [->| ->].
  - exists (distancia_euclidiana lm). split; [reflexivity|].
    intros c1 c2 x E. rewrite distancia_euclidiana_sim; assumption.
  - exists (distancia_haversine lm). split; [reflexivity|].
    intros c1 c2 x. apply distancia_haversine_sim; assumption.
Qed.

(** *** Filling the matrix *)

(** The cell at row [i], column [j]. *)
Definition celda (matriz : list (list float)) (i j : nat) : option float :=
  match nth_error matriz i with
  | Some fila => nth_error fila j
  | None => None
  end.

(** [k] rows of [k] entries. *)
Definition bien_formada (k : nat) (matriz : list (list float)) : Prop :=
  List.length matriz = k /\ Forall (fun fila => List.length fila = k) matriz.

(** [matriz[i][j]] *)
Definition entrada (matriz : list (list float)) (i j : Z) : res float :=
  fila <- getitem matriz i ;; getitem fila j.

Lemma entrada_celda (k : nat) (matriz : list (list float)) (i j : nat)
    (x : float) :
  bien_formada k matriz -> (i < k)%nat -> (j < k)%nat ->
  celda matriz i j = Some x ->
  entrada matriz (Z.of_nat i) (Z.of_nat j) = Ok x.
Proof.
  intros (Hl & Hf) Hi Hj Hc. unfold celda in Hc.
  destruct (nth_error matriz i) as [fila|] eqn:Ef; [|discriminate].
  unfold entrada.
  destruct (getitem_in matriz (Z.of_nat i)) as (fila' & -> & Hn);
    [unfold len; lia|].
  rewrite posicion_nonneg, Nat2Z.id in Hn by lia.
  assert (fila' = fila) by congruence. subst fila'. cbn [bind].
  rewrite Forall_forall in Hf. pose proof (Hf _ (nth_error_In _ _ Ef)) as Hlf.
  destruct (getitem_in fila (Z.of_nat j)) as (y & -> & Hy); [unfold len; lia|].
  rewrite posicion_nonneg, Nat2Z.id in Hy by lia. congruence.
Qed.

Lemma asignar_ok (k : nat) (matriz : list (list float)) (i j : nat)
    (v : float) :
  bien_formada k matriz -> (i < k)%nat -> (j < k)%nat ->
  exists matriz',
    asignar matriz (Z.of_nat i) (Z.of_nat j) v = Ok matriz' /\
    bien_formada k matriz' /\
    celda matriz' i j = Some v /\
    forall i' j', (i', j') <> (i, j) -> celda matriz' i' j' = celda matriz i' j'.
Proof.
  intros (Hl & Hf) Hi Hj. unfold asignar.
  destruct (getitem_in matriz (Z.of_nat i)) as (fila & -> & Hn);
    [unfold len; lia|].
  rewrite posicion_nonneg, Nat2Z.id in Hn by lia. cbn [bind].
  rewrite Forall_forall in Hf. pose proof (Hf _ (nth_error_In _ _ Hn)) as Hlf.
  rewrite setitem_in by (unfold len; lia). cbn [bind].
  rewrite setitem_in by (unfold len; lia).
  rewrite !posicion_nonneg, !Nat2Z.id by lia.
  eexists. split; [reflexivity|]. split; [|split].
  - split; [rewrite reemplazar_length; exact Hl|].
    apply Forall_forall. intros f Hin. apply In_nth_error in Hin.
    destruct Hin as (i' & Hi'). destruct (Nat.eq_dec i' i) as [->|Hne].
    + rewrite reemplazar_nth_eq in Hi' by lia. injection Hi' as <-.
      rewrite reemplazar_length. exact Hlf.
    + rewrite reemplazar_nth_neq in Hi' by exact Hne.
      eapply Hf, nth_error_In, Hi'.
  - unfold celda. rewrite reemplazar_nth_eq by lia.
    apply reemplazar_nth_eq. lia.
  - intros i' j' Hne. unfold celda. destruct (Nat.eq_dec i' i) as [->|Hi'].
    + rewrite reemplazar_nth_eq by lia. rewrite Hn.
      apply reemplazar_nth_neq. congruence.
    + rewrite reemplazar_nth_neq by exact Hi'. reflexivity.
Qed.

(** Rule for a loop that returned: [Inv hecho s] relates the items already
    visited to the state, and every body that returns restores it. *)
Lemma for_each_returned {A S : Type} (Inv : list A -> S -> Prop)
    (cuerpo : A -> S -> res S) (l : list A) (s0 s' : S) :
  Inv [] s0 ->
  (forall hecho x resto s s1,
      l = hecho ++ x :: resto -> Inv hecho s -> cuerpo x s = Ok s1 ->
      Inv (hecho ++ [x]) s1) ->
  for_each l cuerpo s0 = Ok s' -> Inv l s'.
Proof.
  intros H0 Hstep.
  assert (G : forall resto hecho s,
             l = hecho ++ resto -> Inv hecho s ->
             for_each resto cuerpo s = Ok s' -> Inv l s').
  { induction resto as [|x resto IH]; intros hecho s E HI Hr.
    - rewrite app_nil_r in E. subst. cbn in Hr. injection Hr as <-. exact HI.
    - cbn in Hr. destruct (cuerpo x s) as [s1|e] eqn:E1; [|discriminate].
      cbn in Hr. apply (IH (hecho ++ [x]) s1); auto.
      + rewrite <- app_assoc. exact E.
      + eapply Hstep; eauto. }
  apply (G l [] s0); auto.
Qed.

Section Llenado.

Variable ciudades : list ciudad.
Variable func : float * float -> float * float -> res float.

Let k : nat := List.length ciudades.

(** What the loops compute for the cell at [(i, j)]. *)
Definition valor (i j : nat) : res float :=
  match nth_error ciudades i, nth_error ciudades j with
  | Some ci, Some cj =>
      if Nat.eqb i j then Ok cero else func (coords ci) (coords cj)
  | _, _ => Raise IndexError
  end.

(** Body of [for j in range(n)]. *)
Definition celda_ij (i j : Z) (matriz : list (list float))
  : res (list (list float)) :=
  if i =? j then asignar matriz i j cero
  else
    ci <- getitem ciudades i ;;
    cj <- getitem ciudades j ;;
    d <- func (coords ci) (coords cj) ;;
    asignar matriz i j d.

Lemma celda_ij_valor (matriz : list (list float)) (i j : nat) :
  (i < k)%nat -> (j < k)%nat ->
  celda_ij (Z.of_nat i) (Z.of_nat j) matriz
  = (d <- valor i j ;; asignar matriz (Z.of_nat i) (Z.of_nat j) d).
Proof.
  intros Hi Hj. unfold celda_ij, valor.
  destruct (getitem_in ciudades (Z.of_nat i)) as (ci & Eci & Hci);
    [unfold len; fold k; lia|].
  destruct (getitem_in ciudades (Z.of_nat j)) as (cj & Ecj & Hcj);
    [unfold len; fold k; lia|].
  rewrite posicion_nonneg, Nat2Z.id in Hci, Hcj by lia. rewrite Hci, Hcj.
  destruct (Z.eqb_spec (Z.of_nat i) (Z.of_nat j)) as [E|E].
  - apply Nat2Z.inj in E. subst j. rewrite Nat.eqb_refl. reflexivity.
  - destruct (Nat.eqb_spec i j) as [->|_]; [contradiction|].
    rewrite Eci, Ecj. reflexivity.
Qed.

(** A cell is written exactly when its value is computed. *)
Lemma celda_ij_spec (matriz matriz' : list (list float)) (i j : nat) :
  bien_formada k matriz -> (i < k)%nat -> (j < k)%nat ->
  celda_ij (Z.of_nat i) (Z.of_nat j) matriz = Ok matriz' ->
  bien_formada k matriz' /\
  (exists d, valor i j = Ok d /\ celda matriz' i j = Some d) /\
  forall i' j', (i', j') <> (i, j) -> celda matriz' i' j' = celda matriz i' j'.
Proof.
  intros Hwf Hi Hj. rewrite celda_ij_valor by assumption.
  destruct (valor i j) as [d|e]; [|discriminate]. cbn [bind].
  destruct (asignar_ok k matriz i j d Hwf Hi Hj) as (m' & -> & Hwf' & Hn & Ho).
  intros H. injection H as <-. split; [exact Hwf'|]. split; [|exact Ho].
  exists d. split; [reflexivity|exact Hn].
Qed.

Lemma celda_ij_total (matriz : list (list float)) (i j : nat) :
  bien_formada k matriz -> (i < k)%nat -> (j < k)%nat ->
  (exists d, valor i j = Ok d) ->
  exists matriz', celda_ij (Z.of_nat i) (Z.of_nat j) matriz = Ok matriz'.
Proof.
  intros Hwf Hi Hj (d & E). rewrite celda_ij_valor, E by assumption.
  cbn [bind].
  destruct (asignar_ok k matriz i j d Hwf Hi Hj) as (m' & -> & _). eauto.
Qed.

(** Row [i] once the loop over [j] has returned. *)
Lemma fila_spec (matriz matriz' : list (list float)) (i : nat) :
  bien_formada k matriz -> (i < k)%nat ->
  for_each (range 0 (Z.of_nat k)) (celda_ij (Z.of_nat i)) matriz = Ok matriz' ->
  bien_formada k matriz' /\
  (forall j, (j < k)%nat ->
             exists d, valor i j = Ok d /\ celda matriz' i j = Some d) /\
  forall i' j', i' <> i -> celda matriz' i' j' = celda matriz i' j'.
Proof.
  intros Hwf Hi Hr.
  pose proof (for_each_returned
                (fun hecho mat =>
                   bien_formada k mat /\
                   (forall j, (j < List.length hecho)%nat ->
                      exists d, valor i j = Ok d /\ celda mat i j = Some d) /\
                   forall i' j', i' <> i -> celda mat i' j' = celda matriz i' j')
                (celda_ij (Z.of_nat i)) (range 0 (Z.of_nat k)) matriz matriz')
    as H.
  destruct H as (Hwf' & Hrow & Hrest).
  - split; [exact Hwf|]. split; [cbn; lia|reflexivity].
  - intros hecho x resto mat mat1 E (Hwf' & Hrow & Hrest) E1.
    unfold range in E. apply range_desde_split in E.
    destruct E as (-> & _ & Hlt). rewrite Z.sub_0_r, Nat2Z.id in Hlt.
    rewrite Z.add_0_l in E1.
    destruct (celda_ij_spec mat mat1 i (List.length hecho) Hwf' Hi Hlt E1)
      as (Hwf'' & Hnew & Hold).
    split; [exact Hwf''|]. split.
    + intros j Hj. rewrite length_app in Hj. cbn in Hj.
      destruct (Nat.eq_dec j (List.length hecho)) as [->|Hne]; [exact Hnew|].
      rewrite Hold by congruence. apply Hrow. lia.
    + intros i' j' Hi'. rewrite Hold by congruence. apply Hrest, Hi'.
  - exact Hr.
  - split; [exact Hwf'|]. split; [|exact Hrest].
    intros j Hj. apply Hrow. rewrite range_length. lia.
Qed.

Lemma fila_total (matriz : list (list float)) (i : nat) :
  bien_formada k matriz -> (i < k)%nat ->
  (forall j, (j < k)%nat -> exists d, valor i j = Ok d) ->
  exists matriz',
    for_each (range 0 (Z.of_nat k)) (celda_ij (Z.of_nat i)) matriz = Ok matriz'
    /\ bien_formada k matriz'.
Proof.
  intros Hwf Hi Hall.
  destruct (for_each_inv (fun _ mat => bien_formada k mat)
              (celda_ij (Z.of_nat i)) (range 0 (Z.of_nat k)) matriz)
    as (mat & E & Hwf').
  - exact Hwf.
  - intros hecho x resto mat E Hwf'.
    unfold range in E. apply range_desde_split in E.
    destruct E as (-> & _ & Hlt). rewrite Z.sub_0_r, Nat2Z.id in Hlt.
    rewrite Z.add_0_l.
    destruct (celda_ij_total mat i (List.length hecho) Hwf' Hi Hlt
                (Hall _ Hlt)) as (mat' & E').
    exists mat'. split; [exact E'|].
    apply (celda_ij_spec mat mat' i (List.length hecho) Hwf' Hi Hlt E').
  - eauto.
Qed.

Lemma inicial_bien_formada : bien_formada k (repeat (repeat cero k) k).
Proof.
  split; [apply repeat_length|]. apply Forall_forall. intros f Hf.
  apply repeat_spec in Hf. subst f. apply repeat_length.
Qed.

(** The matrix once both loops have returned. *)
Lemma llenado_spec (matriz : list (list float)) :
  for_each (range 0 (Z.of_nat k))
    (fun i mat => for_each (range 0 (Z.of_nat k)) (celda_ij i) mat)
    (repeat (repeat cero k) k) = Ok matriz ->
  bien_formada k matriz /\
  forall i j, (i < k)%nat -> (j < k)%nat ->
              exists d, valor i j = Ok d /\ celda matriz i j = Some d.
Proof.
  intros Hr.
  pose proof (for_each_returned
                (fun hecho mat =>
                   bien_formada k mat /\
                   forall i j, (i < List.length hecho)%nat -> (j < k)%nat ->
                     exists d, valor i j = Ok d /\ celda mat i j = Some d)
                (fun i mat => for_each (range 0 (Z.of_nat k)) (celda_ij i) mat)
                (range 0 (Z.of_nat k)) (repeat (repeat cero k) k) matriz) as H.
  destruct H as (Hwf & Hall).
  - split; [apply inicial_bien_formada|]. cbn. intros i j Hi. lia.
  - intros hecho x resto mat mat1 E (Hwf & Hall) E1.
    unfold range in E. apply range_desde_split in E.
    destruct E as (-> & _ & Hlt). rewrite Z.sub_0_r, Nat2Z.id in Hlt.
    rewrite Z.add_0_l in E1.
    destruct (fila_spec mat mat1 (List.length hecho) Hwf Hlt E1)
      as (Hwf' & Hrow & Hrest).
    split; [exact Hwf'|].
    intros i j Hi Hj. rewrite length_app in Hi. cbn in Hi.
    destruct (Nat.eq_dec i (List.length hecho)) as [->|Hne]; [apply Hrow, Hj|].
    rewrite Hrest by exact Hne. apply Hall; lia.
  - exact Hr.
  - split; [exact Hwf|].
    intros i j Hi Hj. apply Hall; [|exact Hj]. rewrite range_length. lia.
Qed.

Lemma llenado_total :
  (forall i j, (i < k)%nat -> (j < k)%nat -> exists d, valor i j = Ok d) ->
  exists matriz,
    for_each (range 0 (Z.of_nat k))
      (fun i mat => for_each (range 0 (Z.of_nat k)) (celda_ij i) mat)
      (repeat (repeat cero k) k) = Ok matriz.
Proof.
  intros Hall.
  destruct (for_each_inv (fun _ mat => bien_formada k mat)
              (fun i mat => for_each (range 0 (Z.of_nat k)) (celda_ij i) mat)
              (range 0 (Z.of_nat k)) (repeat (repeat cero k) k))
    as (mat & E & _).
  - apply inicial_bien_formada.
  - intros hecho x resto mat E Hwf.
    unfold range in E. apply range_desde_split in E.
    destruct E as (-> & _ & Hlt). rewrite Z.sub_0_r, Nat2Z.id in Hlt.
    rewrite Z.add_0_l.
    apply (fila_total mat (List.length hecho) Hwf Hlt).
    intros j Hj. apply Hall; assumption.
  - eauto.
Qed.

(** The metric returns on every ordered pair of cities at distinct
    positions. *)
Definition metrica_definida : Prop :=
  forall i j ci cj,
    i <> j -> nth_error ciudades i = Some ci -> nth_error ciudades j = Some cj ->
    exists d, func (coords ci) (coords cj) = Ok d.

Lemma valor_definido :
  metrica_definida <->
  forall i j, (i < k)%nat -> (j < k)%nat -> exists d, valor i j = Ok d.
Proof.
  unfold metrica_definida, valor. split.
  - intros H i j Hi Hj.
    destruct (nth_error ciudades i) as [ci|] eqn:Ei;
      [|apply nth_error_None in Ei; fold k in Ei; lia].
    destruct (nth_error ciudades j) as [cj|] eqn:Ej;
      [|apply nth_error_None in Ej; fold k in Ej; lia].
    destruct (Nat.eqb_spec i j) as [_|Hne]; [eauto|].
    apply (H i j ci cj Hne Ei Ej).
  - intros H i j ci cj Hne Ei Ej.
    assert (Hi : (i < k)%nat) by (apply nth_error_Some; congruence).
    assert (Hj : (j < k)%nat) by (apply nth_error_Some; congruence).
    specialize (H i j Hi Hj). rewrite Ei, Ej in H.
    destruct (Nat.eqb_spec i j) as [|_]; [contradiction|exact H].
Qed.

End Llenado.

(** The loops of [construir_matriz_distancias] for one metric. *)
Lemma construir_matriz_distancias_bucles (lm : libm) (ciudades : list ciudad)
    (metodo : String.string)
    (func : float * float -> float * float -> res float) :
  metodos lm metodo = Some func ->
  construir_matriz_distancias lm ciudades metodo
  = for_each (range 0 (Z.of_nat (List.length ciudades)))
      (fun i mat =>
         for_each (range 0 (Z.of_nat (List.length ciudades)))
           (celda_ij ciudades func i) mat)
      (repeat (repeat cero (List.length ciudades)) (List.length ciudades)).
Proof.
  intros E. unfold construir_matriz_distancias. rewrite E.
  unfold len. rewrite Nat2Z.id. reflexivity.
Qed.

(** A stand-in for the C library, to run the definitions on samples: the
    square is the rounded product, the sine and the arc tangent of small
    arguments are the arguments themselves, the cosine is [1.0]. *)
Definition libm_muestra : libm := {|
  float_pow := fun x _ => Ok (mul x x);
  math_sin := fun x => Ok x;
  math_cos := fun _ => Ok (of_Z 1);
  math_atan2 := fun y _ => Ok y
|}.

Lemma libm_muestra_par : potencia_par libm_muestra.
Proof.
  intros x. cbn [float_pow libm_muestra]. f_equal.
  destruct x as [s|s| |s m e]; try destruct s; reflexivity.
Qed.

Lemma libm_muestra_impar : seno_impar libm_muestra.
Proof. intros x. reflexivity. Qed.

(** Two cities on the unit square. *)
Definition dos_ciudades : list ciudad :=
  [{| nombre := "A"; coords := (cero, cero) |};
   {| nombre := "B"; coords := (cero, of_Z 1) |}].

(** C8. For either supported metric, ['euclid'] or ['haversine'], with a C
    library whose square ignores the sign of the base and whose sine is odd:
    the matrix is returned whenever the metric returns on every ordered pair
    of cities at distinct positions, and whenever a matrix is returned it has
    one row per city and, for all rows [i] and columns [j] of it, the entries
    [[i][j]] and [[j][i]] are the same float (equal under [==] unless NaN)
    and the entry [[i][i]] is [0.0]. *)
Theorem construir_matriz_distancias_simetrica (lm : libm)
    (ciudades : list ciudad) (metodo : String.string) :
  potencia_par lm -> seno_impar lm ->
  (metodo = "euclid" \/ metodo = "haversine")%string ->
  exists func,
    metodos lm metodo = Some func /\
    (metrica_definida ciudades func ->
     exists matriz, construir_matriz_distancias lm ciudades metodo = Ok matriz)
    /\
    forall matriz,
      construir_matriz_distancias lm ciudades metodo = Ok matriz ->
      len matriz = len ciudades /\
      forall i j, 0 <= i < len ciudades -> 0 <= j < len ciudades ->
        exists x y, entrada matriz i j = Ok x /\
                    entrada matriz j i = Ok y /\
                    x = y /\
                    (is_nan x = false -> eqb x y = true) /\
                    entrada matriz i i = Ok cero.
Proof.
  intros Hp Hs Hmet.
  destruct (metodos_simetricos lm metodo Hp Hs Hmet) as (func & Em & Hsim).
  exists func. split; [exact Em|].
  rewrite (construir_matriz_distancias_bucles lm ciudades metodo func Em).
  split.
  - intros Hdef. apply llenado_total, valor_definido, Hdef.
  - intros matriz E. apply llenado_spec in E. destruct E as (Hwf & Hall).
    split; [unfold len; f_equal; apply Hwf|].
    intros i j Hi Hj. unfold len in Hi, Hj.
    assert (Hi' : (Z.to_nat i < List.length ciudades)%nat) by lia.
    assert (Hj' : (Z.to_nat j < List.length ciudades)%nat) by lia.
    destruct (Hall _ _ Hi' Hj') as (x & Vx & Cx).
    destruct (Hall _ _ Hj' Hi') as (y & Vy & Cy).
    destruct (Hall _ _ Hi' Hi') as (z & Vz & Cz).
    exists x, y.
    rewrite <- (Z2Nat.id i), <- (Z2Nat.id j) by lia.
    assert (Exy : x = y).
    { unfold valor in Vx, Vy.
      destruct (nth_error ciudades (Z.to_nat i)) as [ci|]; [|discriminate].
      destruct (nth_error ciudades (Z.to_nat j)) as [cj|]; [|discriminate].
      rewrite (Nat.eqb_sym (Z.to_nat j)) in Vy.
      destruct (Nat.eqb (Z.to_nat i) (Z.to_nat j)); [congruence|].
      apply Hsim in Vx. congruence. }
    assert (Ez : z = cero).
    { unfold valor in Vz.
      destruct (nth_error ciudades (Z.to_nat i)) as [ci|]; [|discriminate].
      rewrite Nat.eqb_refl in Vz. congruence. }
    subst y z.
    split; [apply (entrada_celda _ _ _ _ _ Hwf Hi' Hj' Cx)|].
    split; [apply (entrada_celda _ _ _ _ _ Hwf Hj' Hi' Cy)|].
    split; [reflexivity|]. split; [apply eqb_refl|].
    apply (entrada_celda _ _ _ _ _ Hwf Hi' Hi' Cz).
Qed.

Lemma construir_matriz_distancias_simetrica_witness :
  (potencia_par libm_muestra /\ seno_impar libm_muestra /\
   ("haversine" = "euclid" \/ "haversine" = "haversine")%string) /\
  exists func,
    metodos libm_muestra "haversine" = Some func /\
    (metrica_definida dos_ciudades func ->
     exists matriz,
       construir_matriz_distancias libm_muestra dos_ciudades "haversine"
       = Ok matriz)
    /\
    forall matriz,
      construir_matriz_distancias libm_muestra dos_ciudades "haversine"
      = Ok matriz ->
      len matriz = len dos_ciudades /\
      forall i j, 0 <= i < len dos_ciudades -> 0 <= j < len dos_ciudades ->
        exists x y, entrada matriz i j = Ok x /\
                    entrada matriz j i = Ok y /\
                    x = y /\
                    (is_nan x = false -> eqb x y = true) /\
                    entrada matriz i i = Ok cero.
Proof.
  split.
  - split; [apply libm_muestra_par|].
    split; [apply libm_muestra_impar|right; reflexivity].
  - apply construir_matriz_distancias_simetrica;
      [apply libm_muestra_par|apply libm_muestra_impar|right; reflexivity].
Defined.

(** The unit step between the two sample cities, in both directions. *)
Example construir_matriz_distancias_dos_ciudades :
  construir_matriz_distancias libm_muestra dos_ciudades "euclid"
  = Ok [[cero; of_Z 1]; [of_Z 1; cero]].
Proof. vm_compute. reflexivity. Qed.

(** Any other metric name is refused. *)
Example construir_matriz_distancias_desconocido (lm : libm) :
  construir_matriz_distancias lm dos_ciudades "manhattan" = Raise ValueError.
Proof. reflexivity. Qed.

End DistanceFacts.

(** * Further properties *)

(** ** Exhaustive search: the optimum and the trace *)

Module ExhaustiveExtra.
Import PyFacts MatrizFacts FloatFacts ExhaustiveSearch ExhaustiveFacts Ejemplos.

Lemma ltb_bajo_inf (x y : float) : ltb x y = true -> ltb x inf = true.
Proof.
  unfold ltb, SFltb.
  destruct x as [s|s| |s mx ex], y as [s'|s'| |s' my ey];
    repeat match goal with b : bool |- _ => destruct b end;
    cbn; congruence.
Qed.

(** The best cycle and the best length move together: either no length was
    below the best at the start, or the state holds one of the cycles of [l]
    with its length, a length below infinity. *)
Lemma fold_registrar_ciclo (m : list (list float)) (l : list (list Z))
    (st : variables) :
  let st' := fold_left (registrar m) l st in
  (v_mejor_ciclo st' = v_mejor_ciclo st /\
   v_mejor_longitud st' = v_mejor_longitud st /\
   forall p, In p l -> ltb (longitud_de m p) (v_mejor_longitud st) = false) \/
  exists p, In p l /\ v_mejor_ciclo st' = Some (0 :: p) /\
            v_mejor_longitud st' = longitud_de m p /\
            ltb (longitud_de m p) inf = true.
Proof.
  revert st. induction l as [|p t IH]; intros st; cbn [fold_left].
  - left. split; [reflexivity|]. split; [reflexivity|]. intros p [].
  - destruct (IH (registrar m st p)) as [(Ec & El & Hno)|(q & Hq & Ec & El & Hq')].
    + cbn zeta. rewrite Ec, El.
      cbn [registrar v_mejor_ciclo v_mejor_longitud] in *.
      destruct (ltb (longitud_de m p) (v_mejor_longitud st)) eqn:E.
      * right. exists p. split; [left; reflexivity|]. split; [reflexivity|].
        split; [reflexivity|]. eapply ltb_bajo_inf, E.
      * left. split; [reflexivity|]. split; [reflexivity|].
        intros q [<-|Hq]; [exact E|apply Hno, Hq].
    + right. exists q. split; [right; exact Hq|]. auto.
Qed.

(** X1. On [n >= 1] cities and an [n] by [n] matrix, either no cycle has a
    length below infinity and the search returns [None] with length [inf], or
    it returns a cycle [[0] ++ p], [p] a permutation of [1 .. n-1], together
    with the length [calcular_longitud_ciclo] gives for that very cycle, a
    length below infinity. *)
Theorem busqueda_exhaustiva_ciclo_optimo {C : Type} (ciudades : list C)
    (m : list (list float)) (t0 t1 : float) :
  1 <= len ciudades ->
  cuadrada (len ciudades) m = true ->
  exists r,
    busqueda_exhaustiva ciudades m t0 t1 = Ok r /\
    ((ciclo_optimo r = None /\ longitud_optima r = inf /\
      forall p L, Permutation p (range 1 (len ciudades)) ->
                  calcular_longitud_ciclo ([0] ++ p) m = Ok L ->
                  ltb L inf = false) \/
     exists p, Permutation p (range 1 (len ciudades)) /\
               ciclo_optimo r = Some ([0] ++ p) /\
               calcular_longitud_ciclo ([0] ++ p) m = Ok (longitud_optima r) /\
               ltb (longitud_optima r) inf = true).
Proof.
  intros Hn Hm. rewrite (busqueda_exhaustiva_fold _ _ _ _ Hn Hm).
  eexists. split; [reflexivity|]. cbn [ciclo_optimo longitud_optima].
  destruct (fold_registrar_ciclo m (permutations (range 1 (len ciudades)))
              variables_iniciales) as [(Ec & El & Hno)|(p & Hp & Ec & El & Hlt)].
  - left. split; [exact Ec|]. split; [exact El|]. intros p L Hp EL.
    destruct (evaluar_registrar _ m p Hn Hm Hp) as (E' & _).
    cbn [app] in EL. rewrite E' in EL. injection EL as <-.
    apply (Hno p), permutations_In, Hp.
  - right. exists p. apply permutations_In in Hp. split; [exact Hp|].
    split; [exact Ec|]. cbn zeta in El. rewrite El. split; [|exact Hlt].
    apply (evaluar_registrar _ m p Hn Hm Hp).
Qed.

Lemma busqueda_exhaustiva_ciclo_optimo_witness :
  (1 <= len tres_ciudades /\ cuadrada (len tres_ciudades) matriz_tres = true) /\
  exists r,
    busqueda_exhaustiva tres_ciudades matriz_tres cero cero = Ok r /\
    ((ciclo_optimo r = None /\ longitud_optima r = inf /\
      forall p L, Permutation p (range 1 (len tres_ciudades)) ->
                  calcular_longitud_ciclo ([0] ++ p) matriz_tres = Ok L ->
                  ltb L inf = false) \/
     exists p, Permutation p (range 1 (len tres_ciudades)) /\
               ciclo_optimo r = Some ([0] ++ p) /\
               calcular_longitud_ciclo ([0] ++ p) matriz_tres
               = Ok (longitud_optima r) /\
               ltb (longitud_optima r) inf = true).
Proof.
  split.
  - split; [vm_compute; discriminate | reflexivity].
  - apply busqueda_exhaustiva_ciclo_optimo;
      [vm_compute; discriminate | reflexivity].
Defined.




(** *** The trace of small instances *)

Lemma entradas_ciclos (m : list (list float)) (l : list (list Z)) (k : Z)
    (best : float) :
  map ciclo (entradas m k best l) = map (cons 0) l /\
  map iteracion (entradas m k best l) = range_desde (k + 1) (length l) /\
  Forall (fun e => iteracion e <= k + len l) (entradas m k best l).
Proof.
  revert k best. induction l as [|p t IH]; intros k best; cbn [entradas map].
  - repeat split. constructor.
  - destruct (IH (k + 1) (if ltb (longitud_de m p) best then longitud_de m p
                          else best)) as (E1 & E2 & Hf).
    cbn [ciclo iteracion length range_desde]. rewrite E1, E2.
    split; [reflexivity|]. split; [reflexivity|].
    unfold len in *. cbn [length]. constructor; cbn [iteracion]; [lia|].
    eapply Forall_impl; [|exact Hf]. cbn. intros e He. lia.
Qed.

Lemma filter_todos {A : Type} (f : A -> bool) (l : list A) :
  Forall (fun x => f x = true) l -> filter f l = l.
Proof.
  induction 1 as [|x t Hx _ IH]; cbn; [reflexivity|]. rewrite Hx, IH. reflexivity.
Qed.

(** X3. When [(n-1)! <= 1000], as it is up to seven cities, nothing is left
    out of ['historial']: it holds the cycle of every permutation, in
    enumeration order, numbered from 1 to [(n-1)!]. *)
Theorem busqueda_exhaustiva_historial_completo {C : Type} (ciudades : list C)
    (m : list (list float)) (t0 t1 : float) :
  1 <= len ciudades ->
  cuadrada (len ciudades) m = true ->
  Z.of_nat (fact (length ciudades - 1)) <= 1000 ->
  exists r,
    busqueda_exhaustiva ciudades m t0 t1 = Ok r /\
    map ciclo (historial r) = map (cons 0) (permutations (range 1 (len ciudades))) /\
    map iteracion (historial r) = range 1 (ciclos_evaluados r + 1) /\
    len (historial r) = ciclos_evaluados r.
Proof.
  intros Hn Hm Hfact. rewrite (busqueda_exhaustiva_fold _ _ _ _ Hn Hm).
  eexists. split; [reflexivity|]. cbn [historial ciclos_evaluados].
  rewrite fold_registrar_historial, fold_registrar_evaluados.
  cbn [variables_iniciales v_historial v_ciclos_evaluados v_mejor_longitud app].
  set (perms := permutations (range 1 (len ciudades))).
  assert (Hlen : len perms = Z.of_nat (fact (length ciudades - 1))).
  { unfold len, perms. rewrite permutations_length, range_length.
    unfold len in *. do 2 f_equal. lia. }
  destruct (entradas_ciclos m perms 0 inf) as (E1 & E2 & Hf).
  rewrite filter_todos.
  - split; [exact E1|]. split.
    + rewrite E2. unfold range. f_equal. unfold len. lia.
    + unfold len at 1. rewrite <- (length_map iteracion), E2, range_desde_length.
      unfold len. lia.
  - eapply Forall_impl; [|exact Hf]. cbn. intros e He.
    unfold conservar. apply orb_true_iff. left. apply Z.leb_le. lia.
Qed.

Lemma busqueda_exhaustiva_historial_completo_witness :
  (1 <= len tres_ciudades /\
   cuadrada (len tres_ciudades) matriz_tres = true /\
   Z.of_nat (fact (length tres_ciudades - 1)) <= 1000) /\
  exists r,
    busqueda_exhaustiva tres_ciudades matriz_tres cero cero = Ok r /\
    map ciclo (historial r)
    = map (cons 0) (permutations (range 1 (len tres_ciudades))) /\
    map iteracion (historial r) = range 1 (ciclos_evaluados r + 1) /\
    len (historial r) = ciclos_evaluados r.
Proof.
  split.
  - split; [vm_compute; discriminate|].
    split; [reflexivity | vm_compute; discriminate].
  - apply busqueda_exhaustiva_historial_completo;
      [vm_compute; discriminate | reflexivity | vm_compute; discriminate].
Defined.

(** *** The improvements *)

Lemma ltb_trans (x y z : float) :
  ltb x y = true -> ltb y z = true -> ltb x z = true.
Proof. intros H1 H2. eapply ltb_leb_trans; [exact H1|apply ltb_leb, H2]. Qed.

Lemma filter_filter_impl {A : Type} (f g : A -> bool) (l : list A) :
  (forall x, f x = true -> g x = true) ->
  filter f (filter g l) = filter f l.
Proof.
  intros H. induction l as [|x t IH]; cbn; [reflexivity|].
  destruct (g x) eqn:Eg; cbn.
  - rewrite IH. reflexivity.
  - destruct (f x) eqn:Ef; [|exact IH]. rewrite (H x Ef) in Eg. discriminate.
Qed.

(** The entries flagged as improvements descend in length, below the length
    the loop started from, and the last of them is the state's best. *)
Lemma fold_registrar_mejoras (m : list (list float)) (l : list (list Z))
    (st : variables) :
  let F := filter es_mejor
             (entradas m (v_ciclos_evaluados st) (v_mejor_longitud st) l) in
  let st' := fold_left (registrar m) l st in
  StronglySorted (fun e e' => ltb (longitud e') (longitud e) = true) F /\
  Forall (fun e => ltb (longitud e) (v_mejor_longitud st) = true) F /\
  ((F = [] /\ v_mejor_ciclo st' = v_mejor_ciclo st /\
    v_mejor_longitud st' = v_mejor_longitud st) \/
   exists F' e, F = F' ++ [e] /\ v_mejor_ciclo st' = Some (ciclo e) /\
                v_mejor_longitud st' = longitud e).
Proof.
  revert st. induction l as [|p t IH]; intros st; cbn [entradas filter fold_left].
  - cbn. split; [constructor|]. split; [constructor|]. left. auto.
  - specialize (IH (registrar m st p)).
    cbn [registrar v_ciclos_evaluados v_mejor_longitud v_mejor_ciclo] in IH.
    cbn [es_mejor].
    destruct (ltb (longitud_de m p) (v_mejor_longitud st)) eqn:E.
    + cbn zeta in *. destruct IH as (Hs & Hf & Hlast).
      split; [|split].
      * constructor; [exact Hs|]. cbn [longitud]. exact Hf.
      * constructor; [exact E|]. eapply Forall_impl; [|exact Hf].
        cbn. intros e He. eapply ltb_trans; eauto.
      * right. destruct Hlast as [(-> & Ec & El)|(F' & e & -> & Ec & El)].
        -- eexists [], _. split; [reflexivity|]. cbn [ciclo longitud].
           split; assumption.
        -- eexists (_ :: F'), e. split; [reflexivity|]. split; assumption.
    + exact IH.
Qed.

(** X4. The entries of ['historial'] flagged ['es_mejor'], the frames the
    animation shows, have strictly decreasing lengths; when the search
    returns a cycle, the last flagged entry carries that cycle and the
    returned length, and when it returns [None] no entry is flagged. *)
Theorem busqueda_exhaustiva_mejoras {C : Type} (ciudades : list C)
    (m : list (list float)) (t0 t1 : float) :
  1 <= len ciudades ->
  cuadrada (len ciudades) m = true ->
  exists r,
    busqueda_exhaustiva ciudades m t0 t1 = Ok r /\
    StronglySorted (fun e e' => ltb (longitud e') (longitud e) = true)
      (filter es_mejor (historial r)) /\
    (ciclo_optimo r = None -> filter es_mejor (historial r) = []) /\
    (forall c, ciclo_optimo r = Some c ->
       exists previas e,
         filter es_mejor (historial r) = previas ++ [e] /\
         ciclo e = c /\ longitud e = longitud_optima r).
Proof.
  intros Hn Hm. rewrite (busqueda_exhaustiva_fold _ _ _ _ Hn Hm).
  eexists. split; [reflexivity|]. cbn [historial ciclo_optimo longitud_optima].
  rewrite fold_registrar_historial.
  cbn [variables_iniciales v_historial v_ciclos_evaluados v_mejor_longitud app].
  rewrite filter_filter_impl.
  2:{ intros e He. unfold conservar. rewrite He. apply orb_true_r. }
  destruct (fold_registrar_mejoras m (permutations (range 1 (len ciudades)))
              variables_iniciales) as (Hs & _ & Hlast).
  cbn [variables_iniciales v_ciclos_evaluados v_mejor_longitud v_mejor_ciclo]
    in Hs, Hlast.
  split; [exact Hs|]. split.
  - intros Hnone. destruct Hlast as [(E & _)|(F' & e & _ & Ec & _)];
      [exact E|congruence].
  - intros c Hc. destruct Hlast as [(_ & Ec & _)|(F' & e & E & Ec & El)];
      [congruence|].
    exists F', e. split; [exact E|]. split; [congruence|]. symmetry. exact El.
Qed.

Lemma busqueda_exhaustiva_mejoras_witness :
  (1 <= len tres_ciudades /\ cuadrada (len tres_ciudades) matriz_tres = true) /\
  exists r,
    busqueda_exhaustiva tres_ciudades matriz_tres cero cero = Ok r /\
    StronglySorted (fun e e' => ltb (longitud e') (longitud e) = true)
      (filter es_mejor (historial r)) /\
    (ciclo_optimo r = None -> filter es_mejor (historial r) = []) /\
    (forall c, ciclo_optimo r = Some c ->
       exists previas e,
         filter es_mejor (historial r) = previas ++ [e] /\
         ciclo e = c /\ longitud e = longitud_optima r).
Proof.
  split.
  - split; [vm_compute; discriminate | reflexivity].
  - apply busqueda_exhaustiva_mejoras;
      [vm_compute; discriminate | reflexivity].
Defined.

(** *** Failures of the cycle length *)

Lemma bind_ok {A B : Type} (c : res A) (k : A -> res B) (b : B) :
  bind c k = Ok b -> exists a, c = Ok a /\ k a = Ok b.
Proof. destruct c as [a|e]; cbn; intros H; [eauto | discriminate]. Qed.

Lemma bind_raise {A B : Type} (c : res A) (k : A -> res B) (e : exn) :
  bind c k = Raise e -> c = Raise e \/ exists a, c = Ok a /\ k a = Raise e.
Proof.
  destruct c as [a|e']; cbn; intros H; [eauto|]. left. congruence.
Qed.

Lemma getitem_raise {A : Type} (l : list A) (i : Z) (e : exn) :
  getitem l i = Raise e -> e = IndexError.
Proof.
  unfold getitem. destruct ((0 <=? _) && (_ <? _)).
  - destruct (nth_error l _); congruence.
  - congruence.
Qed.

Lemma getitem_ok_rango {A : Type} (l : list A) (i : Z) (a : A) :
  getitem l i = Ok a ->
  - len l <= i < len l /\
  nth_error l (Z.to_nat (posicion (len l) i)) = Some a.
Proof.
  intros H.
  assert (Hi : - len l <= i < len l).
  { destruct (Z_le_dec (- len l) i); [destruct (Z_lt_dec i (len l))|];
      try lia; rewrite getitem_out in H by lia; discriminate. }
  split; [exact Hi|].
  destruct (getitem_in l i Hi) as (a' & E & Hn). congruence.
Qed.

(** A finished loop ran its body, successfully, on every item. *)
Lemma for_each_ok_cuerpos {A S : Type} (cuerpo : A -> S -> res S)
    (l : list A) (s s' : S) :
  for_each l cuerpo s = Ok s' ->
  forall x, In x l -> exists s1 s2, cuerpo x s1 = Ok s2.
Proof.
  revert s. induction l as [|y t IH]; intros s H x Hx; [destruct Hx|].
  cbn in H. apply bind_ok in H. destruct H as (s1 & E1 & H).
  destruct Hx as [<-|Hx]; [eauto|]. eapply IH; eauto.
Qed.

(** A loop raises what one of its bodies raised. *)
Lemma for_each_raise {A S : Type} (cuerpo : A -> S -> res S)
    (l : list A) (s : S) (e : exn) :
  for_each l cuerpo s = Raise e ->
  exists x s1, In x l /\ cuerpo x s1 = Raise e.
Proof.
  revert s. induction l as [|y t IH]; intros s H; [discriminate|].
  cbn in H. apply bind_raise in H. destruct H as [H|(s1 & E1 & H)].
  - exists y, s. split; [left; reflexivity|exact H].
  - destruct (IH _ H) as (x & s2 & Hx & E). exists x, s2.
    split; [right; exact Hx|exact E].
Qed.

Lemma calcular_longitud_ciclo_raise (c : list Z) (m : list (list float))
    (e : exn) :
  calcular_longitud_ciclo c m = Raise e -> e = IndexError.
Proof.
  intros H. apply for_each_raise in H. destruct H as (i & L & _ & H).
  repeat (apply bind_raise in H;
          destruct H as [H|(? & _ & H)]; [eapply getitem_raise, H|]).
  discriminate.
Qed.

Lemma calcular_longitud_ciclo_rango (c : list Z) (m : list (list float))
    (L : float) :
  calcular_longitud_ciclo c m = Ok L ->
  forall x, In x c -> - len m <= x < len m.
Proof.
  intros H x Hx. apply In_nth_error in Hx. destruct Hx as (i & Hi).
  assert (Hlt : (i < length c)%nat) by (apply nth_error_Some; congruence).
  destruct (for_each_ok_cuerpos _ _ _ _ H (Z.of_nat i)) as (s1 & s2 & E).
  { apply range_In. unfold len. lia. }
  apply bind_ok in E. destruct E as (a & Ea & E).
  apply bind_ok in E. destruct E as (b & _ & E).
  apply bind_ok in E. destruct E as (fila & Ef & _).
  apply getitem_ok_rango in Ea. destruct Ea as (_ & Ea).
  rewrite posicion_nonneg, Nat2Z.id in Ea by lia.
  assert (a = x) by congruence. subst a.
  apply getitem_ok_rango in Ef. apply Ef.
Qed.

(** X5. [calcular_longitud_ciclo] raises nothing but [IndexError]; when it
    returns, every city of the cycle is a valid row subscript of the matrix,
    negative ones included; and on a square matrix it returns for every cycle
    of valid subscripts, the empty cycle among them. *)
Theorem calcular_longitud_ciclo_errores (c : list Z) (m : list (list float)) :
  (forall e, calcular_longitud_ciclo c m = Raise e -> e = IndexError) /\
  (forall L, calcular_longitud_ciclo c m = Ok L ->
             forall x, In x c -> - len m <= x < len m) /\
  (cuadrada (len m) m = true ->
   (forall x, In x c -> - len m <= x < len m) ->
   exists L, calcular_longitud_ciclo c m = Ok L).
Proof.
  split; [apply calcular_longitud_ciclo_raise|].
  split; [apply calcular_longitud_ciclo_rango|].
  intros Hm Hc.
  destruct (calcular_longitud_ciclo_ok (len m) m c Hm) as (L & E & _).
  - apply Forall_forall. exact Hc.
  - eauto.
Qed.

Lemma calcular_longitud_ciclo_errores_witness :
  (cuadrada (len matriz_tres) matriz_tres = true /\
   (forall x, In x [0; -1; 1] -> - len matriz_tres <= x < len matriz_tres)) /\
  exists L, calcular_longitud_ciclo [0; -1; 1] matriz_tres = Ok L.
Proof.
  split.
  - split; [reflexivity|].
    intros x [<-|[<-|[<-|[]]]]; change (len matriz_tres) with 3; lia.
  - apply (calcular_longitud_ciclo_errores [0; -1; 1] matriz_tres);
      [reflexivity|].
    intros x [<-|[<-|[<-|[]]]]; change (len matriz_tres) with 3; lia.
Defined.

(** X6. A matrix with fewer rows than there are cities makes the search
    raise [IndexError], on the first cycle it evaluates. *)
Theorem busqueda_exhaustiva_matriz_corta {C : Type} (ciudades : list C)
    (m : list (list float)) (t0 t1 : float) :
  len m < len ciudades ->
  busqueda_exhaustiva ciudades m t0 t1 = Raise IndexError.
Proof.
  intros Hlen. pose proof (len_nonneg m) as H0.
  unfold busqueda_exhaustiva.
  destruct (permutations (range 1 (len ciudades))) as [|p0 resto] eqn:Ep.
  - apply (f_equal (@length (list Z))) in Ep.
    rewrite permutations_length in Ep. cbn in Ep.
    pose proof (lt_O_fact (length (range 1 (len ciudades)))). lia.
  - assert (Hp0 : Permutation p0 (range 1 (len ciudades))).
    { apply permutations_In. rewrite Ep. left. reflexivity. }
    assert (Hin : In (len ciudades - 1) (0 :: p0)).
    { destruct (Z.eq_dec (len ciudades) 1) as [E|E].
      - left. lia.
      - right. apply (Permutation_in _ (Permutation_sym Hp0)), range_In. lia. }
    cbn [for_each]. unfold evaluar at 1.
    destruct (calcular_longitud_ciclo (0 :: p0) m) as [L|e] eqn:E.
    + apply (calcular_longitud_ciclo_rango _ _ _ E) in Hin. lia.
    + apply calcular_longitud_ciclo_raise in E. subst e. reflexivity.
Qed.

Lemma busqueda_exhaustiva_matriz_corta_witness :
  len [[cero; of_Z 1]; [of_Z 1; cero]] < len tres_ciudades /\
  busqueda_exhaustiva tres_ciudades [[cero; of_Z 1]; [of_Z 1; cero]] cero cero
  = Raise IndexError.
Proof.
  split.
  - reflexivity.
  - apply busqueda_exhaustiva_matriz_corta. reflexivity.
Defined.

End ExhaustiveExtra.

(** ** Nearest neighbour: length, trace and restarts *)

Module NearestExtra.
Import PyFacts MatrizFacts FloatFacts NearestNeighbor NearestFacts Ejemplos.

(** Length of the open path through the cities of [l], added to [acc] edge by
    edge from the left. *)
Fixpoint camino (m : list (list float)) (acc : float) (l : list Z) : float :=
  match l with
  | [] => acc
  | a :: t =>
      match t with
      | [] => acc
      | b :: _ => camino m (add acc (dist m a b)) t
      end
  end.

Lemma camino_snoc (m : list (list float)) (l : list Z) (a b : Z) (acc : float) :
  camino m acc (l ++ [a; b]) = add (camino m acc (l ++ [a])) (dist m a b).
Proof.
  revert acc. induction l as [|x l IH]; intros acc; [reflexivity|].
  destruct l as [|y l]; [reflexivity|].
  change (camino m (add acc (dist m x y)) ((y :: l) ++ [a; b]) =
          add (camino m (add acc (dist m x y)) ((y :: l) ++ [a])) (dist m a b)).
  apply IH.
Qed.

Lemma firstn_S_nth {A : Type} (l : list A) (i : nat) (a : A) :
  nth_error l i = Some a -> firstn (S i) l = firstn i l ++ [a].
Proof.
  revert i. induction l as [|x t IH]; intros [|i] H; cbn in H; try discriminate.
  - injection H as ->. reflexivity.
  - cbn [firstn app]. f_equal. apply IH, H.
Qed.

Lemma nth_error_ultimo {A : Type} (l : list A) (a d : A) :
  nth_error l (length l - 1) = Some a -> last l d = a.
Proof.
  induction l as [|x t IH]; intros H; [discriminate|].
  replace (length (x :: t) - 1)%nat with (length t) in H by (cbn; lia).
  destruct t as [|y t]; [cbn in *; congruence|].
  change (last (x :: y :: t) d) with (last (y :: t) d). apply IH.
  replace (length (y :: t) - 1)%nat with (length t) by (cbn; lia).
  exact H.
Qed.

Lemma dist_leida (m : list (list float)) (a b : Z) (fila : list float)
    (x : float) :
  getitem m a = Ok fila -> getitem fila b = Ok x -> dist m a b = x.
Proof. intros Ef Ex. unfold dist. rewrite Ef, Ex. reflexivity. Qed.

(** The closed length of a cycle: its open path, then the edge back to the
    first city. *)
Lemma calcular_longitud_ciclo_camino (n : Z) (m : list (list float))
    (a0 : Z) (resto : list Z) :
  cuadrada n m = true ->
  Forall (fun x => - n <= x < n) (a0 :: resto) ->
  ExhaustiveSearch.calcular_longitud_ciclo (a0 :: resto) m =
  Ok (add (camino m cero (a0 :: resto))
          (dist m (last (a0 :: resto) a0) a0)).
Proof.
  intros Hm Hc. set (c := a0 :: resto) in *.
  assert (Hpos : (0 < length c)%nat) by (cbn; lia).
  destruct (for_each_inv
              (fun hecho acc =>
                 ((length hecho < length c)%nat ->
                  acc = camino m cero (firstn (S (length hecho)) c)) /\
                 (length hecho = length c ->
                  acc = add (camino m cero c) (dist m (last c a0) a0)))
              (fun i longitud =>
                 ciudad_actual <- getitem c i ;;
                 ciudad_siguiente <- getitem c ((i + 1) mod len c) ;;
                 fila <- getitem m ciudad_actual ;;
                 d <- getitem fila ciudad_siguiente ;;
                 Ok (add longitud d))
              (range 0 (len c)) cero) as (L & E & _ & HL).
  - split; [intros _; reflexivity|]. cbn [length]. lia.
  - intros hecho x rest acc E (Hacc & _).
    unfold range in E. apply range_desde_split in E.
    destruct E as (-> & _ & Hlt). unfold len in Hlt.
    rewrite Z.sub_0_r, Nat2Z.id in Hlt. rewrite Z.add_0_l.
    set (i := length hecho) in *. specialize (Hacc Hlt). subst acc.
    rewrite Forall_forall in Hc.
    destruct (getitem_in c (Z.of_nat i)) as (a & Ea & Ha); [unfold len; lia|].
    rewrite posicion_nonneg, Nat2Z.id in Ha by lia.
    assert (Hmod : 0 <= (Z.of_nat i + 1) mod len c < len c).
    { apply Z.mod_pos_bound. unfold len. lia. }
    destruct (getitem_in c ((Z.of_nat i + 1) mod len c)) as (b & Eb & Hb); [lia|].
    rewrite posicion_nonneg in Hb by lia.
    pose proof (Hc _ (nth_error_In _ _ Ha)) as Hra.
    pose proof (Hc _ (nth_error_In _ _ Hb)) as Hrb.
    destruct (entrada_ok n m a b Hm Hra Hrb) as (fila & d & Ef & Ed & _ & _).
    rewrite Ea, Eb. cbn [bind]. rewrite Ef. cbn [bind]. rewrite Ed. cbn [bind].
    rewrite <- (dist_leida m a b fila d Ef Ed).
    eexists. split; [reflexivity|]. rewrite length_app. cbn [length]. fold i.
    replace (i + 1)%nat with (S i) by lia. split.
    + (* an inner edge *)
      intros Hnext. rewrite Z.mod_small in Hb by (unfold len; lia).
      replace (Z.to_nat (Z.of_nat i + 1)) with (S i) in Hb by lia.
      rewrite (firstn_S_nth c (S i) b Hb), (firstn_S_nth c i a Ha).
      rewrite <- app_assoc. cbn [app]. symmetry. apply camino_snoc.
    + (* the closing edge *)
      intros Hend.
      replace ((Z.of_nat i + 1) mod len c) with 0 in Hb.
      2:{ unfold len. rewrite <- Hend.
          replace (Z.of_nat i + 1) with (Z.of_nat (S i)) by lia.
          rewrite Z.mod_same by lia. reflexivity. }
      cbn in Hb. injection Hb as <-.
      rewrite Hend, firstn_all. f_equal. f_equal. symmetry.
      apply nth_error_ultimo. rewrite <- Hend.
      replace (S i - 1)%nat with i by lia. exact Ha.
  - unfold ExhaustiveSearch.calcular_longitud_ciclo. fold c. rewrite E.
    f_equal. apply HL. rewrite range_length. unfold len. lia.
Qed.

(** *** The trace of the construction *)

(** The entry recorded at step [j] of the closed tour [tour]: the first
    [j + 1] cities, the edge between the last two of them, and the length of
    the path so far. *)
Definition paso_de (m : list (list float)) (tour : list Z) (j : nat) : entrada :=
  let origen := nth (j - 1) tour 0 in
  let destino := nth j tour 0 in
  {| ciclo_parcial := firstn (S j) tour;
     ciudad_origen := origen;
     ciudad_destino := destino;
     distancia := dist m origen destino;
     longitud_acumulada := camino m cero (firstn (S j) tour);
     paso := Z.of_nat j |}.

(** Appending a city appends one entry and leaves the earlier ones as they
    were. *)
Lemma paso_de_extiende (m : list (list float)) (previo : list Z) (a c : Z) :
  let ciclo := previo ++ [a] in
  map (paso_de m ciclo) (seq 1 (length ciclo - 1)) ++
    [{| ciclo_parcial := ciclo ++ [c];
        ciudad_origen := a;
        ciudad_destino := c;
        distancia := dist m a c;
        longitud_acumulada := add (camino m cero ciclo) (dist m a c);
        paso := Z.of_nat (length ciclo) |}]
  = map (paso_de m (ciclo ++ [c])) (seq 1 (length (ciclo ++ [c]) - 1)).
Proof.
  intros ciclo.
  assert (Hlen : length ciclo = S (length previo)).
  { unfold ciclo. rewrite length_app. cbn. lia. }
  rewrite length_app. cbn [length].
  replace (length ciclo + 1 - 1)%nat with (S (length ciclo - 1)) by lia.
  rewrite seq_S, map_app. cbn [map]. f_equal.
  - apply map_ext_in. intros j Hj. apply in_seq in Hj. unfold paso_de.
    rewrite !firstn_app.
    replace (S j - length ciclo)%nat with O by lia. cbn [firstn].
    rewrite !app_nil_r, !(app_nth1 ciclo) by lia. reflexivity.
  - replace (1 + (length ciclo - 1))%nat with (length ciclo) by lia.
    unfold paso_de. f_equal.
    assert (Eo : nth (length ciclo - 1) (ciclo ++ [c]) 0 = a).
    { rewrite app_nth1 by lia. unfold ciclo.
      replace (length (previo ++ [a]) - 1)%nat with (length previo)
        by (rewrite length_app; cbn; lia).
      apply nth_middle. }
    assert (Ed : nth (length ciclo) (ciclo ++ [c]) 0 = c) by apply nth_middle.
    assert (Ef : firstn (S (length ciclo)) (ciclo ++ [c]) = ciclo ++ [c]).
    { apply firstn_all2. rewrite length_app. cbn. lia. }
    rewrite Eo, Ed, Ef. f_equal. unfold ciclo. rewrite <- app_assoc.
    cbn [app]. symmetry. apply camino_snoc.
Qed.

Section Traza.

Variable n : Z.
Variable m : list (list float).
Hypothesis Hm : cuadrada n m = true.
Hypothesis Hfin : finita m = true.
Variable s : Z.
Hypothesis Hs : - n <= s < n.

(** The construction invariant, with the running length and the trace. *)
Record inv_traza (k : Z) (st : variables) : Prop := {
  it_ciclo : inv_ciclo n m s k st;
  it_longitud : v_longitud_total st = camino m cero (v_ciclo st);
  it_historial :
    v_historial st =
    map (paso_de m (v_ciclo st)) (seq 1 (length (v_ciclo st) - 1))
}.

Lemma avanzar_traza (k : Z) (st : variables) :
  inv_traza k st -> k + 1 < n ->
  exists st', avanzar n m k st = Ok st' /\ inv_traza (k + 1) st'.
Proof.
  intros [HI Hlong Hhist] Hk.
  destruct (avanzar_inv n m Hm Hfin s Hs k k st HI Hk) as (st' & E & HI').
  exists st'. split; [exact E|].
  pose proof (inv_actual_rango n m s Hs k st HI) as Ha.
  destruct (buscar_spec n m Hm Hfin (v_visitadas st) (v_ciudad_actual st)
              (inv_len_vis _ _ _ _ _ HI) Ha) as ([md mc] & Eb & Hb).
  unfold avanzar in E. rewrite Eb in E. cbn [bind fst snd] in E.
  unfold inv_buscar in Hb. cbn [fst snd] in Hb.
  destruct mc as [c|]; [|discriminate]. destruct Hb as (-> & _).
  destruct (setitem (v_visitadas st) c true) as [vis|e]; [|discriminate].
  cbn [bind] in E. injection E as <-.
  destruct (inv_actual _ _ _ _ _ HI) as (previo & Eprev).
  pose proof (inv_len _ _ _ _ _ HI) as Hlen. unfold len in Hlen.
  constructor; cbn [v_ciclo v_longitud_total v_historial].
  - exact HI'.
  - rewrite Hlong, Eprev, <- app_assoc. cbn [app]. symmetry. apply camino_snoc.
  - rewrite Hhist, Hlong, Eprev.
    rewrite <- (paso_de_extiende m previo (v_ciudad_actual st) c).
    cbn zeta. do 3 f_equal. rewrite <- Eprev. lia.
Qed.

(** The result of the heuristic: its cycle, its length as the closed length of
    that cycle, and its trace as a function of the closed tour. *)
Lemma vecino_mas_cercano_traza {C : Type} (ciudades : list C) (t0 t1 : float) :
  len ciudades = n ->
  exists r,
    vecino_mas_cercano ciudades m s t0 t1 = Ok r /\
    ciclo_construido n m s (ciclo r) /\
    longitud r = add (camino m cero (ciclo r)) (dist m (last (ciclo r) s) s) /\
    historial r = map (paso_de m (ciclo r ++ [s])) (seq 1 (Z.to_nat n)).
Proof.
  intros Hn.
  destruct (vecino_mas_cercano_construye n m Hm Hfin s Hs ciudades t0 t1 Hn)
    as (r & Er & Hcc).
  exists r. split; [exact Er|]. split; [exact Hcc|].
  unfold vecino_mas_cercano in Er. rewrite Hn in Er.
  assert (Hlen : len (repeat false (Z.to_nat n)) = n)
    by (unfold len; rewrite repeat_length; lia).
  pose proof (setitem_in (repeat false (Z.to_nat n)) s true) as Eset.
  rewrite Hlen in Eset. specialize (Eset Hs).
  rewrite Eset in Er. cbn [bind] in Er.
  destruct (for_each_inv (fun hecho st => inv_traza (len hecho) st)
              (avanzar n m) (range 0 (n - 1))
              {| v_visitadas :=
                   reemplazar (repeat false (Z.to_nat n))
                     (Z.to_nat (posicion n s)) true;
                 v_ciclo := [s]; v_longitud_total := cero;
                 v_historial := []; v_ciudad_actual := s |})
    as (st & Est & HT).
  - constructor; [|reflexivity|reflexivity].
    apply inv_ciclo_inicial; assumption.
  - intros hecho x resto st E HT.
    assert (Hk : len hecho + 1 < n).
    { apply (f_equal (@length Z)) in E.
      rewrite range_length, length_app in E. cbn in E. unfold len. lia. }
    assert (Ex : x = len hecho).
    { unfold range in E. apply range_desde_split in E. unfold len. lia. }
    subst x. destruct (avanzar_traza _ st HT Hk) as (st' & E' & HT').
    exists st'. split; [exact E'|]. rewrite len_app. exact HT'.
  - rewrite Est in Er. cbn [bind] in Er. destruct HT as [HI Hlong Hhist].
    pose proof (inv_actual_rango n m s Hs _ st HI) as Ha.
    destruct (dist_ok n m Hm Hfin (v_ciudad_actual st) s Ha Hs)
      as (fila & Ef & Ed & _).
    rewrite Ef in Er. cbn [bind] in Er. rewrite Ed in Er. cbn [bind] in Er.
    injection Er as <-. cbn [ciclo longitud historial].
    destruct (inv_actual _ _ _ _ _ HI) as (previo & Eprev).
    assert (Elast : last (v_ciclo st) s = v_ciudad_actual st).
    { rewrite Eprev. apply last_last. }
    rewrite Elast, Hlong. split; [reflexivity|].
    rewrite Hhist, Eprev.
    pose proof (paso_de_extiende m previo (v_ciudad_actual st) s) as Hext.
    cbn zeta in Hext.
    pose proof (inv_len _ _ _ _ _ HI) as Hl. unfold len in Hl.
    rewrite range_length in Hl. rewrite Eprev in Hl.
    replace (Z.of_nat (length (previo ++ [v_ciudad_actual st]))) with n
      in Hext by lia.
    rewrite Hext. do 2 f_equal. rewrite length_app. cbn [length]. lia.
Qed.

End Traza.

(** The closed length of a constructed cycle. *)
Lemma ciclo_construido_calcular (n : Z) (m : list (list float)) (s : Z)
    (c : list Z) :
  cuadrada n m = true -> - n <= s < n ->
  ciclo_construido n m s c ->
  ExhaustiveSearch.calcular_longitud_ciclo c m =
  Ok (add (camino m cero c) (dist m (last c s) s)).
Proof.
  intros Hm Hs [_ (resto & -> & Hr) _ _].
  apply (calcular_longitud_ciclo_camino n); [exact Hm|].
  constructor; [exact Hs|]. eapply Forall_impl; [|exact Hr]. cbn. lia.
Qed.

(** X7. On a finite [n] by [n] matrix and a start index in [-n, n), the
    length the heuristic returns is, bit for bit, the closed-cycle length
    [calcular_longitud_ciclo] computes for the cycle it returns: both add the
    same edges in the same order. *)
Theorem vecino_mas_cercano_longitud {C : Type} (ciudades : list C)
    (m : list (list float)) (ciudad_inicio : Z) (t0 t1 : float) :
  cuadrada (len ciudades) m = true ->
  finita m = true ->
  - len ciudades <= ciudad_inicio < len ciudades ->
  exists r,
    vecino_mas_cercano ciudades m ciudad_inicio t0 t1 = Ok r /\
    ExhaustiveSearch.calcular_longitud_ciclo (ciclo r) m = Ok (longitud r).
Proof.
  intros Hm Hfin Hs.
  destruct (vecino_mas_cercano_traza (len ciudades) m Hm Hfin ciudad_inicio Hs
              ciudades t0 t1 eq_refl) as (r & E & Hcc & El & _).
  exists r. split; [exact E|]. rewrite El.
  apply (ciclo_construido_calcular (len ciudades)); assumption.
Qed.

Lemma vecino_mas_cercano_longitud_witness :
  (cuadrada (len tres_ciudades) matriz_tres = true /\
   finita matriz_tres = true /\
   - len tres_ciudades <= 2 < len tres_ciudades) /\
  exists r,
    vecino_mas_cercano tres_ciudades matriz_tres 2 cero cero = Ok r /\
    ExhaustiveSearch.calcular_longitud_ciclo (ciclo r) matriz_tres
    = Ok (longitud r).
Proof.
  split.
  - split; [reflexivity|]. split; [reflexivity|].
    split; [vm_compute; discriminate|reflexivity].
  - apply vecino_mas_cercano_longitud; [reflexivity | reflexivity |].
    split; [vm_compute; discriminate|reflexivity].
Defined.

Lemma range_cero (n : Z) : 1 <= n -> range 0 n = 0 :: range 1 n.
Proof.
  intros Hn. unfold range.
  replace (Z.to_nat (n - 0)) with (S (Z.to_nat (n - 1))) by lia. reflexivity.
Qed.

(** X8. On [n >= 1] cities and a finite [n] by [n] matrix both solvers
    return, and the length of the exhaustive search is at most the length of
    the heuristic started at city 0: the heuristic's cycle is one of the
    cycles the search evaluates. *)
Theorem exhaustiva_no_supera_vecino {C : Type} (ciudades : list C)
    (m : list (list float)) (t0 t1 t2 t3 : float) :
  1 <= len ciudades ->
  cuadrada (len ciudades) m = true ->
  finita m = true ->
  exists re rn,
    ExhaustiveSearch.busqueda_exhaustiva ciudades m t0 t1 = Ok re /\
    vecino_mas_cercano ciudades m 0 t2 t3 = Ok rn /\
    leb (ExhaustiveSearch.longitud_optima re) (longitud rn) = true.
Proof.
  intros Hn Hm Hfin. set (n := len ciudades) in *.
  assert (Hs : - n <= 0 < n) by lia.
  destruct (vecino_mas_cercano_traza n m Hm Hfin 0 Hs ciudades t2 t3 eq_refl)
    as (rn & En & Hcc & El & _).
  pose proof (ciclo_construido_calcular n m 0 _ Hm Hs Hcc) as Ecal.
  rewrite <- El in Ecal.
  destruct Hcc as [Hlen (resto & Ec & Hr) Hnd _].
  rewrite Ec in Hnd, Hlen, Ecal.
  rewrite (posiciones_no_negativas n 0 resto (Z.le_refl 0) Hr) in Hnd.
  assert (Hperm : Permutation resto (range 1 n)).
  { apply (Permutation_cons_inv (a := 0)). rewrite <- range_cero by exact Hn.
    apply NoDup_Permutation_bis; [exact Hnd| |].
    - rewrite range_length. unfold len in Hlen. lia.
    - intros x [<-|Hx]; apply range_In; [lia|].
      rewrite Forall_forall in Hr. apply Hr, Hx. }
  rewrite (ExhaustiveFacts.busqueda_exhaustiva_fold _ _ _ _ Hn Hm).
  eexists _, rn. split; [reflexivity|]. split; [exact En|].
  cbn [ExhaustiveSearch.longitud_optima].
  assert (Ede : ExhaustiveFacts.longitud_de m resto = longitud rn).
  { unfold ExhaustiveFacts.longitud_de. rewrite Ecal. reflexivity. }
  rewrite <- Ede. apply ExhaustiveFacts.fold_registrar_minimo.
  - reflexivity.
  - intros q Hq. apply permutations_In in Hq.
    apply (ExhaustiveFacts.evaluar_registrar n m q Hn Hm Hq), Hfin.
  - apply permutations_In, Hperm.
Qed.

Lemma exhaustiva_no_supera_vecino_witness :
  (1 <= len tres_ciudades /\
   cuadrada (len tres_ciudades) matriz_tres = true /\
   finita matriz_tres = true) /\
  exists re rn,
    ExhaustiveSearch.busqueda_exhaustiva tres_ciudades matriz_tres cero cero
    = Ok re /\
    vecino_mas_cercano tres_ciudades matriz_tres 0 cero cero = Ok rn /\
    leb (ExhaustiveSearch.longitud_optima re) (longitud rn) = true.
Proof.
  split.
  - split; [vm_compute; discriminate | split; reflexivity].
  - apply exhaustiva_no_supera_vecino;
      [vm_compute; discriminate | reflexivity | reflexivity].
Defined.

Lemma map_of_nat_seq (a k : nat) :
  map Z.of_nat (seq a k) = range_desde (Z.of_nat a) k.
Proof.
  revert a. induction k as [|k IH]; intros a; cbn [seq map range_desde].
  - reflexivity.
  - f_equal. rewrite IH. f_equal. lia.
Qed.

(** X9. On a finite [n] by [n] matrix and a start index in [-n, n) the trace
    of the heuristic has [n] entries, numbered 1 to [n]; entry [j] holds the
    first [j + 1] cities of the closed tour, its last edge with the matrix
    entry of that edge, and the length of the path so far; the last entry
    holds the whole closed tour and the returned length. *)
Theorem vecino_mas_cercano_historial {C : Type} (ciudades : list C)
    (m : list (list float)) (ciudad_inicio : Z) (t0 t1 : float) :
  cuadrada (len ciudades) m = true ->
  finita m = true ->
  - len ciudades <= ciudad_inicio < len ciudades ->
  exists r,
    vecino_mas_cercano ciudades m ciudad_inicio t0 t1 = Ok r /\
    historial r =
    map (paso_de m (ciclo r ++ [ciudad_inicio])) (seq 1 (length ciudades)) /\
    map paso (historial r) = range 1 (len ciudades + 1) /\
    exists previas e,
      historial r = previas ++ [e] /\
      ciclo_parcial e = ciclo r ++ [ciudad_inicio] /\
      ciudad_destino e = ciudad_inicio /\
      longitud_acumulada e = longitud r.
Proof.
  intros Hm Hfin Hs. set (n := len ciudades) in *.
  destruct (vecino_mas_cercano_traza n m Hm Hfin ciudad_inicio Hs
              ciudades t0 t1 eq_refl) as (r & E & Hcc & El & Eh).
  exists r. split; [exact E|].
  assert (En : Z.to_nat n = length ciudades) by apply Nat2Z.id.
  rewrite En in Eh. split; [exact Eh|]. split.
  - rewrite Eh, map_map.
    change (fun x => paso (paso_de m (ciclo r ++ [ciudad_inicio]) x))
      with Z.of_nat.
    rewrite map_of_nat_seq. unfold range. f_equal. unfold n, len. lia.
  - destruct Hcc as [Hlen (resto & Ec & _) _ _]. unfold len in Hlen.
    destruct (exists_last (l := ciclo r)) as (previo & a & Ea);
      [rewrite Ec; discriminate|].
    assert (Hk : length ciudades = S (length previo)).
    { rewrite Ea, length_app in Hlen. cbn in Hlen. unfold n, len in Hlen. lia. }
    rewrite Hk, seq_S, map_app in Eh. cbn [map] in Eh.
    eexists _, _. split; [exact Eh|]. cbn [paso_de ciclo_parcial
      ciudad_destino longitud_acumulada].
    assert (Hlc : length (ciclo r) = (1 + length previo)%nat).
    { rewrite Ea, length_app. cbn. lia. }
    assert (Ef : firstn (S (1 + length previo)) (ciclo r ++ [ciudad_inicio])
                 = ciclo r ++ [ciudad_inicio]).
    { apply firstn_all2. rewrite length_app. cbn [length]. lia. }
    rewrite Ef. split; [reflexivity|]. split.
    + rewrite <- Hlc. apply nth_middle.
    + rewrite El, Ea, last_last, <- app_assoc. cbn [app]. apply camino_snoc.
Qed.

Lemma vecino_mas_cercano_historial_witness :
  (cuadrada (len tres_ciudades) matriz_tres = true /\
   finita matriz_tres = true /\
   - len tres_ciudades <= 1 < len tres_ciudades) /\
  exists r,
    vecino_mas_cercano tres_ciudades matriz_tres 1 cero cero = Ok r /\
    historial r =
    map (paso_de matriz_tres (ciclo r ++ [1])) (seq 1 (length tres_ciudades)) /\
    map paso (historial r) = range 1 (len tres_ciudades + 1) /\
    exists previas e,
      historial r = previas ++ [e] /\
      ciclo_parcial e = ciclo r ++ [1] /\
      ciudad_destino e = 1 /\
      longitud_acumulada e = longitud r.
Proof.
  split.
  - split; [reflexivity|]. split; [reflexivity|].
    split; [vm_compute; discriminate|reflexivity].
  - apply vecino_mas_cercano_historial; [reflexivity | reflexivity |].
    split; [vm_compute; discriminate|reflexivity].
Defined.


(** *** Restarting from every city *)

(** Every run from a city of [0 .. n-1] returns, with a length that is a
    number. *)
Lemma vecino_mas_cercano_numero {C : Type} (ciudades : list C)
    (m : list (list float)) (inicio : Z) (t0 t1 : float) :
  cuadrada (len ciudades) m = true -> finita m = true ->
  0 <= inicio < len ciudades ->
  exists r, vecino_mas_cercano ciudades m inicio t0 t1 = Ok r /\
            is_nan (longitud r) = false.
Proof.
  intros Hm Hfin Hi. assert (Hs : - len ciudades <= inicio < len ciudades) by lia.
  destruct (vecino_mas_cercano_traza (len ciudades) m Hm Hfin inicio Hs
              ciudades t0 t1 eq_refl) as (r & E & Hcc & El & _).
  exists r. split; [exact E|].
  pose proof (ciclo_construido_calcular _ m inicio _ Hm Hs Hcc) as Ecal.
  rewrite <- El in Ecal.
  destruct (ExhaustiveFacts.calcular_longitud_ciclo_ok (len ciudades) m (ciclo r)
              Hm) as (L & EL & HL).
  - destruct Hcc as [_ (resto & -> & Hr) _ _]. constructor; [exact Hs|].
    eapply Forall_impl; [|exact Hr]. cbn. lia.
  - rewrite Ecal in EL. injection EL as <-. apply HL, Hfin.
Qed.

(** X10. On a finite [n] by [n] matrix the multi-start variant never raises.
    It returns the run of some start city [i] of [0 .. n-1] whose length is
    below infinity, at most the length of every other run and strictly below
    the length of every run from a lower start city; it returns [None] when
    no run has a length below infinity, as with no city at all. *)
Theorem vecino_mas_cercano_multi_inicio_mejor {C : Type} (ciudades : list C)
    (m : list (list float)) (reloj : Z -> float * float) :
  cuadrada (len ciudades) m = true ->
  finita m = true ->
  exists o,
    vecino_mas_cercano_multi_inicio ciudades m reloj = Ok o /\
    match o with
    | None =>
        forall j rj, 0 <= j < len ciudades ->
          vecino_mas_cercano ciudades m j (fst (reloj j)) (snd (reloj j)) = Ok rj ->
          ltb (longitud rj) inf = false
    | Some r =>
        exists i,
          0 <= i < len ciudades /\
          vecino_mas_cercano ciudades m i (fst (reloj i)) (snd (reloj i)) = Ok r /\
          ltb (longitud r) inf = true /\
          forall j rj, 0 <= j < len ciudades ->
            vecino_mas_cercano ciudades m j (fst (reloj j)) (snd (reloj j))
            = Ok rj ->
            leb (longitud r) (longitud rj) = true /\
            (j < i -> ltb (longitud r) (longitud rj) = true)
    end.
Proof.
  intros Hm Hfin. set (n := len ciudades) in *.
  set (run := fun j => vecino_mas_cercano ciudades m j (fst (reloj j))
                         (snd (reloj j))).
  unfold vecino_mas_cercano_multi_inicio. fold n.
  destruct (for_each_inv
              (fun hecho (mejor : option resultado * float) =>
                 match fst mejor with
                 | None =>
                     snd mejor = inf /\
                     forall j rj, In j hecho -> run j = Ok rj ->
                                  ltb (longitud rj) inf = false
                 | Some r =>
                     snd mejor = longitud r /\
                     exists i, In i hecho /\ run i = Ok r /\
                       ltb (longitud r) inf = true /\
                       forall j rj, In j hecho -> run j = Ok rj ->
                         leb (longitud r) (longitud rj) = true /\
                         (j < i -> ltb (longitud r) (longitud rj) = true)
                 end)
              (fun inicio mejor =>
                 solucion <- run inicio ;;
                 if ltb (longitud solucion) (snd mejor)
                 then Ok (Some solucion, longitud solucion)
                 else Ok mejor)
              (range 0 n) (None, inf)) as ([ms ml] & E & HI).
  - cbn. split; [reflexivity|]. intros j rj [].
  - intros hecho x resto [ms ml] E HI. cbn [fst snd] in HI.
    unfold range in E. apply range_desde_split in E.
    destruct E as (Ex & Eh & Hlt). rewrite Z.sub_0_r in Hlt.
    assert (Hx : 0 <= x < n) by lia.
    assert (Hprev : forall j, In j hecho -> 0 <= j < x).
    { intros j Hj. rewrite Eh in Hj. apply range_desde_In in Hj. lia. }
    assert (Hnum : forall j rj, 0 <= j < n -> run j = Ok rj ->
                                is_nan (longitud rj) = false).
    { intros j rj Hj Ej.
      destruct (vecino_mas_cercano_numero ciudades m j (fst (reloj j))
                  (snd (reloj j)) Hm Hfin Hj) as (r' & E' & Hn').
      unfold run in Ej. congruence. }
    destruct (vecino_mas_cercano_numero ciudades m x (fst (reloj x))
                (snd (reloj x)) Hm Hfin Hx) as (rx & Erx & Hnx).
    fold (run x) in Erx. rewrite Erx. cbn [bind snd].
    destruct (ltb (longitud rx) ml) eqn:Hcmp.
    + (* the run from [x] is the new best *)
      eexists. split; [reflexivity|]. cbn [fst snd]. split; [reflexivity|].
      exists x. split; [apply in_or_app; right; left; reflexivity|].
      split; [exact Erx|].
      assert (Hinf : ltb (longitud rx) inf = true).
      { destruct ms as [r|].
        - destruct HI as (-> & i & _ & Ei & Hri & _).
          eapply ltb_leb_trans; [exact Hcmp|apply ltb_leb, Hri].
        - destruct HI as (-> & _). exact Hcmp. }
      split; [exact Hinf|].
      intros j rj Hj Ej. apply in_app_or in Hj. destruct Hj as [Hj|[<-|[]]].
      * assert (Hlt' : ltb (longitud rx) (longitud rj) = true).
        { destruct ms as [r|].
          - destruct HI as (-> & i & _ & _ & _ & Hmin).
            eapply ltb_leb_trans; [exact Hcmp|apply (Hmin j rj Hj Ej)].
          - destruct HI as (_ & Hall).
            eapply ltb_leb_trans; [exact Hinf|].
            apply ltb_false_leb; [|reflexivity|apply (Hall j rj Hj Ej)].
            apply (Hnum j rj); [|exact Ej]. apply Hprev in Hj. lia. }
        split; [apply ltb_leb, Hlt'|intros _; exact Hlt'].
      * assert (rj = rx) by congruence. subst rj.
        split; [apply leb_refl, Hnx|lia].
    + (* the best so far stays *)
      eexists. split; [reflexivity|]. cbn [fst snd].
      destruct ms as [r|].
      * destruct HI as (-> & i & Hi & Ei & Hri & Hmin). split; [reflexivity|].
        exists i. split; [apply in_or_app; left; exact Hi|].
        split; [exact Ei|]. split; [exact Hri|].
        intros j rj Hj Ej. apply in_app_or in Hj. destruct Hj as [Hj|[<-|[]]].
        -- apply (Hmin j rj Hj Ej).
        -- assert (rj = rx) by congruence. subst rj. apply Hprev in Hi.
           split; [|lia]. apply ltb_false_leb; [exact Hnx| |exact Hcmp].
           apply (Hnum i r); [lia|exact Ei].
      * destruct HI as (-> & Hall). split; [reflexivity|].
        intros j rj Hj Ej. apply in_app_or in Hj. destruct Hj as [Hj|[<-|[]]].
        -- apply (Hall j rj Hj Ej).
        -- assert (rj = rx) by congruence. subst rj. exact Hcmp.
  - unfold run in E, HI. rewrite E. cbn [bind fst]. exists ms.
    split; [reflexivity|]. cbn [fst snd] in HI. destruct ms as [r|].
    + destruct HI as (_ & i & Hi & Ei & Hri & Hmin).
      exists i. split; [apply range_In, Hi|]. split; [exact Ei|].
      split; [exact Hri|]. intros j rj Hj. apply Hmin, range_In, Hj.
    + destruct HI as (_ & Hall). intros j rj Hj. apply Hall, range_In, Hj.
Qed.

Lemma vecino_mas_cercano_multi_inicio_mejor_witness :
  (cuadrada (len tres_ciudades) matriz_tres = true /\
   finita matriz_tres = true) /\
  exists o,
    vecino_mas_cercano_multi_inicio tres_ciudades matriz_tres
      (fun _ => (cero, cero)) = Ok o /\
    match o with
    | None =>
        forall j rj, 0 <= j < len tres_ciudades ->
          vecino_mas_cercano tres_ciudades matriz_tres j cero cero = Ok rj ->
          ltb (longitud rj) inf = false
    | Some r =>
        exists i,
          0 <= i < len tres_ciudades /\
          vecino_mas_cercano tres_ciudades matriz_tres i cero cero = Ok r /\
          ltb (longitud r) inf = true /\
          forall j rj, 0 <= j < len tres_ciudades ->
            vecino_mas_cercano tres_ciudades matriz_tres j cero cero = Ok rj ->
            leb (longitud r) (longitud rj) = true /\
            (j < i -> ltb (longitud r) (longitud rj) = true)
    end.
Proof.
  split.
  - split; reflexivity.
  - apply (vecino_mas_cercano_multi_inicio_mejor tres_ciudades matriz_tres
             (fun _ => (cero, cero))); reflexivity.
Defined.

(** A cycle constructed from a start city of [0 .. n-1] visits each city
    once. *)
Lemma ciclo_construido_permutacion (n : Z) (m : list (list float)) (s : Z)
    (c : list Z) :
  0 <= s < n -> ciclo_construido n m s c -> Permutation c (range 0 n).
Proof.
  intros Hs [Hl (resto & -> & Hr) Hnd _].
  rewrite (posiciones_no_negativas _ _ _ (proj1 Hs) Hr) in Hnd.
  apply NoDup_Permutation_bis; [exact Hnd| |].
  - rewrite range_length. unfold len in *. lia.
  - intros x [<-|Hx]; apply range_In; [lia|].
    rewrite Forall_forall in Hr. apply Hr, Hx.
Qed.

End NearestExtra.

(** ** Distance matrix: contents *)

Module DistanceExtra.
Import Stdlib.Strings.String.
Import PyFloat PyFacts DistanceCalculator DistanceFacts.

Lemma binary_round_aux_no_negativo (m e : Z) (l : location) :
  ltb (binary_round_aux prec emax false m e l) cero = false.
Proof.
  unfold binary_round_aux.
  destruct (shr_fexp prec emax m e l) as [mrs' e'].
  destruct (shr_fexp prec emax _ e' loc_Exact) as [mrs'' e''].
  destruct (shr_m mrs''); [reflexivity| |reflexivity].
  destruct (e'' <=? emax - prec); reflexivity.
Qed.

(** [math.sqrt] never returns a value below zero. *)
Lemma math_sqrt_no_negativa (x y : float) :
  math_sqrt x = Ok y -> ltb y cero = false.
Proof.
  unfold math_sqrt. destruct (ltb x cero) eqn:E; [discriminate|].
  intros H. injection H as <-.
  destruct x as [s|[]| |[] m e]; try reflexivity; try discriminate.
  unfold SFsqrt.
  destruct (SFsqrt_core_binary prec emax (Zpos m) e) as [[mz ez] lz].
  apply binary_round_aux_no_negativo.
Qed.

Lemma distancia_euclidiana_no_negativa (lm : libm) (c1 c2 : float * float)
    (d : float) :
  distancia_euclidiana lm c1 c2 = Ok d -> ltb d cero = false.
Proof.
  destruct c1 as (lat1, lon1), c2 as (lat2, lon2). unfold distancia_euclidiana.
  destruct (float_pow lm (sub lat1 lat2) (of_Z 2)) as [p1|e]; [|discriminate].
  cbn [bind].
  destruct (float_pow lm (sub lon1 lon2) (of_Z 2)) as [p2|e]; [|discriminate].
  cbn [bind]. apply math_sqrt_no_negativa.
Qed.

Lemma bien_formada_cuadrada (k : nat) (matriz : list (list float)) :
  bien_formada k matriz -> cuadrada (Z.of_nat k) matriz = true.
Proof.
  intros (Hl & Hf). unfold cuadrada. apply andb_true_intro. split.
  - apply Z.eqb_eq. unfold len. rewrite Hl. reflexivity.
  - apply forallb_forall. intros fila Hin. rewrite Forall_forall in Hf.
    apply Z.eqb_eq. unfold len. rewrite (Hf _ Hin). reflexivity.
Qed.

(** X11. For a supported metric, [construir_matriz_distancias] returns
    exactly when the metric returns on every ordered pair of cities at
    distinct positions.  The matrix it returns has [n] rows of [n] entries;
    the entry [[i][j]], [i <> j], is the value the metric returned for the
    coordinates of cities [i] and [j], and under ['euclid'] no entry is below
    [0.0]. *)
Theorem construir_matriz_distancias_valores (lm : libm)
    (ciudades : list ciudad) (metodo : String.string)
    (func : float * float -> float * float -> res float) :
  metodos lm metodo = Some func ->
  ((exists matriz, construir_matriz_distancias lm ciudades metodo = Ok matriz)
   <-> metrica_definida ciudades func) /\
  forall matriz,
    construir_matriz_distancias lm ciudades metodo = Ok matriz ->
    cuadrada (len ciudades) matriz = true /\
    (forall i j ci cj,
        0 <= i < len ciudades -> 0 <= j < len ciudades -> i <> j ->
        getitem ciudades i = Ok ci -> getitem ciudades j = Ok cj ->
        exists d, func (coords ci) (coords cj) = Ok d /\
                  entrada matriz i j = Ok d) /\
    (metodo = "euclid"%string ->
     forall i j, 0 <= i < len ciudades -> 0 <= j < len ciudades ->
       exists x, entrada matriz i j = Ok x /\ ltb x cero = false).
Proof.
  intros Em.
  rewrite (construir_matriz_distancias_bucles lm ciudades metodo func Em).
  split; [split|].
  - intros (matriz & E). apply valor_definido. intros i j Hi Hj.
    destruct (llenado_spec _ _ _ E) as (_ & Hall).
    destruct (Hall i j Hi Hj) as (d & Ed & _). eauto.
  - intros Hdef. apply llenado_total, valor_definido, Hdef.
  - intros matriz E. destruct (llenado_spec _ _ _ E) as (Hwf & Hall).
    split; [apply bien_formada_cuadrada, Hwf|]. split.
    + intros i j ci cj Hi Hj Hne Eci Ecj. unfold len in Hi, Hj.
      assert (Hi' : (Z.to_nat i < List.length ciudades)%nat) by lia.
      assert (Hj' : (Z.to_nat j < List.length ciudades)%nat) by lia.
      destruct (Hall _ _ Hi' Hj') as (d & Vd & Cd).
      exists d. split.
      * destruct (getitem_in ciudades i) as (ci' & Eci' & Hci);
          [unfold len; lia|].
        destruct (getitem_in ciudades j) as (cj' & Ecj' & Hcj);
          [unfold len; lia|].
        rewrite posicion_nonneg in Hci, Hcj by lia.
        unfold valor in Vd. rewrite Hci, Hcj in Vd.
        destruct (Nat.eqb_spec (Z.to_nat i) (Z.to_nat j)) as [Eij|_]; [lia|].
        congruence.
      * rewrite <- (Z2Nat.id i), <- (Z2Nat.id j) by lia.
        apply (entrada_celda _ _ _ _ _ Hwf Hi' Hj' Cd).
    + intros -> i j Hi Hj. unfold len in Hi, Hj.
      assert (Hi' : (Z.to_nat i < List.length ciudades)%nat) by lia.
      assert (Hj' : (Z.to_nat j < List.length ciudades)%nat) by lia.
      destruct (Hall _ _ Hi' Hj') as (d & Vd & Cd).
      exists d. split.
      * rewrite <- (Z2Nat.id i), <- (Z2Nat.id j) by lia.
        apply (entrada_celda _ _ _ _ _ Hwf Hi' Hj' Cd).
      * injection Em as <-. unfold valor in Vd.
        destruct (nth_error ciudades (Z.to_nat i)) as [ci|]; [|discriminate].
        destruct (nth_error ciudades (Z.to_nat j)) as [cj|]; [|discriminate].
        destruct (Nat.eqb (Z.to_nat i) (Z.to_nat j)).
        -- injection Vd as <-. reflexivity.
        -- eapply distancia_euclidiana_no_negativa, Vd.
Qed.

Lemma construir_matriz_distancias_valores_witness :
  metodos libm_muestra "euclid" = Some (distancia_euclidiana libm_muestra) /\
  ((exists matriz,
       construir_matriz_distancias libm_muestra dos_ciudades "euclid"
       = Ok matriz)
   <-> metrica_definida dos_ciudades (distancia_euclidiana libm_muestra)) /\
  forall matriz,
    construir_matriz_distancias libm_muestra dos_ciudades "euclid" = Ok matriz ->
    cuadrada (len dos_ciudades) matriz = true /\
    (forall i j ci cj,
        0 <= i < len dos_ciudades -> 0 <= j < len dos_ciudades -> i <> j ->
        getitem dos_ciudades i = Ok ci -> getitem dos_ciudades j = Ok cj ->
        exists d, distancia_euclidiana libm_muestra (coords ci) (coords cj)
                  = Ok d /\
                  entrada matriz i j = Ok d) /\
    (("euclid" = "euclid")%string ->
     forall i j, 0 <= i < len dos_ciudades -> 0 <= j < len dos_ciudades ->
       exists x, entrada matriz i j = Ok x /\ ltb x cero = false).
Proof.
  split; [reflexivity|].
  apply (construir_matriz_distancias_valores libm_muestra dos_ciudades "euclid").
  reflexivity.
Defined.

End DistanceExtra.

(** ** Readable routes *)

Module RutaExtra.
Import Stdlib.Strings.String.
Import PyFacts MatrizFacts DistanceCalculator RutaLegible Ejemplos.

Lemma comprension_raise {A B : Type} (f : A -> res B) (l : list A) (e : exn) :
  comprension f l = Raise e -> exists x, In x l /\ f x = Raise e.
Proof.
  induction l as [|x t IH]; cbn; intros H; [discriminate|].
  destruct (f x) as [y|e'] eqn:Ex; cbn in H.
  - destruct (comprension f t) as [ys|e'']; cbn in H; [discriminate|].
    destruct IH as (z & Hz & Ez); [exact H|]. exists z. auto.
  - exists x. split; [left; reflexivity|congruence].
Qed.

Lemma comprension_ok {A B : Type} (f : A -> res B) (l : list A) (ys : list B) :
  comprension f l = Ok ys -> Forall2 (fun x y => f x = Ok y) l ys.
Proof.
  revert ys. induction l as [|x t IH]; cbn; intros ys H.
  - injection H as <-. constructor.
  - destruct (f x) as [y|e] eqn:Ex; cbn in H; [|discriminate].
    destruct (comprension f t) as [ys'|e]; cbn in H; [|discriminate].
    injection H as <-. constructor; [exact Ex|apply IH; reflexivity].
Qed.

Lemma comprension_map {A B : Type} (f : A -> res B) (g : A -> B) (l : list A) :
  (forall x, In x l -> f x = Ok (g x)) -> comprension f l = Ok (map g l).
Proof.
  induction l as [|x t IH]; cbn; intros H; [reflexivity|].
  rewrite H by (left; reflexivity). cbn. rewrite IH; [reflexivity|].
  intros y Hy. apply H. right. exact Hy.
Qed.

(** The name [obtener_ruta_legible] gives for the subscript [i]. *)
Definition nombre_de (ciudades : list ciudad) (i : Z) : string :=
  match nth_error ciudades (Z.to_nat (posicion (len ciudades) i)) with
  | Some c => nombre c
  | None => EmptyString
  end.

Lemma nombre_de_ok (ciudades : list ciudad) (i : Z) :
  - len ciudades <= i < len ciudades ->
  (c <- getitem ciudades i ;; Ok (nombre c)) = Ok (nombre_de ciudades i).
Proof.
  intros Hi. destruct (getitem_in ciudades i Hi) as (c & E & Hc).
  rewrite E. unfold nombre_de. rewrite Hc. reflexivity.
Qed.

(** X15. [obtener_ruta_legible] raises nothing but [IndexError]; it returns
    exactly when every index of the cycle is a valid subscript of the city
    list, negative ones included, and then gives one name per index, in
    order, each the name of the city at that index. *)
Theorem obtener_ruta_legible_nombres (ciclo : list Z) (ciudades : list ciudad) :
  (forall e, obtener_ruta_legible ciclo ciudades = Raise e ->
             e = IndexError /\
             exists i, In i ciclo /\ ~ (- len ciudades <= i < len ciudades)) /\
  (forall nombres, obtener_ruta_legible ciclo ciudades = Ok nombres ->
     Forall2 (fun i nm => exists c, getitem ciudades i = Ok c /\ nm = nombre c)
             ciclo nombres) /\
  ((forall i, In i ciclo -> - len ciudades <= i < len ciudades) ->
   exists nombres, obtener_ruta_legible ciclo ciudades = Ok nombres).
Proof.
  unfold obtener_ruta_legible. split; [|split].
  - intros e H. apply comprension_raise in H. destruct H as (i & Hi & E).
    destruct (getitem ciudades i) as [c|e'] eqn:Eg; cbn in E; [discriminate|].
    injection E as <-. split; [eapply ExhaustiveExtra.getitem_raise, Eg|].
    exists i. split; [exact Hi|]. intros Hr.
    destruct (getitem_in ciudades i Hr) as (c & Ec & _). congruence.
  - intros nombres H. apply comprension_ok in H.
    eapply Forall2_impl; [|exact H]. cbn. intros i nm E.
    destruct (getitem ciudades i) as [c|e]; cbn in E; [|discriminate].
    exists c. split; [reflexivity|congruence].
  - intros Hr. eexists. apply (comprension_map _ (nombre_de ciudades)).
    intros i Hi. apply nombre_de_ok, Hr, Hi.
Qed.

Lemma obtener_ruta_legible_nombres_witness :
  (forall i, In i [1; -2] ->
             - len DistanceFacts.dos_ciudades <= i
             < len DistanceFacts.dos_ciudades) /\
  exists nombres,
    obtener_ruta_legible [1; -2] DistanceFacts.dos_ciudades = Ok nombres.
Proof.
  split.
  - intros i [<-|[<-|[]]]; change (len DistanceFacts.dos_ciudades) with 2; lia.
  - apply (obtener_ruta_legible_nombres [1; -2] DistanceFacts.dos_ciudades).
    intros i [<-|[<-|[]]]; change (len DistanceFacts.dos_ciudades) with 2; lia.
Defined.

Lemma nombres_en_orden (pre l : list ciudad) :
  map (nombre_de (pre ++ l)) (range_desde (len pre) (List.length l)) = map nombre l.
Proof.
  revert pre. induction l as [|x t IH]; intros pre; cbn [List.length range_desde map].
  - reflexivity.
  - f_equal.
    + unfold nombre_de. rewrite posicion_nonneg by apply len_nonneg.
      unfold len. rewrite Nat2Z.id, nth_error_app2 by lia.
      rewrite Nat.sub_diag. reflexivity.
    + specialize (IH (pre ++ [x])). rewrite <- app_assoc in IH. cbn [app] in IH.
      rewrite len_app in IH. exact IH.
Qed.

(** X16. The readable route of the cycle the heuristic returns, for a start
    city of [0 .. n-1] on a finite [n] by [n] matrix, names every city exactly
    once: it is a rearrangement of the list of all city names. *)
Theorem ruta_legible_vecino_mas_cercano (ciudades : list ciudad)
    (m : list (list float)) (ciudad_inicio : Z) (t0 t1 : float) :
  cuadrada (len ciudades) m = true ->
  finita m = true ->
  0 <= ciudad_inicio < len ciudades ->
  exists r nombres,
    NearestNeighbor.vecino_mas_cercano ciudades m ciudad_inicio t0 t1 = Ok r /\
    obtener_ruta_legible (NearestNeighbor.ciclo r) ciudades = Ok nombres /\
    Permutation nombres (map nombre ciudades).
Proof.
  intros Hm Hfin Hs.
  destruct (NearestFacts.vecino_mas_cercano_construye (len ciudades) m Hm Hfin
              ciudad_inicio ltac:(lia) ciudades t0 t1 eq_refl) as (r & E & Hcc).
  pose proof (NearestExtra.ciclo_construido_permutacion _ m _ _ Hs Hcc) as Hp.
  exists r, (map (nombre_de ciudades) (NearestNeighbor.ciclo r)).
  split; [exact E|]. split.
  - apply comprension_map. intros i Hi. apply nombre_de_ok.
    apply (Permutation_in _ Hp), range_In in Hi. lia.
  - rewrite (Permutation_map (nombre_de ciudades) Hp).
    pose proof (nombres_en_orden [] ciudades) as H. cbn [app] in H.
    unfold range. replace (Z.to_nat (len ciudades - 0)) with (List.length ciudades)
      by (unfold len; lia).
    change (len []) with 0 in H. rewrite H. reflexivity.
Qed.

Lemma ruta_legible_vecino_mas_cercano_witness :
  (cuadrada (len DistanceFacts.dos_ciudades) [[cero; of_Z 1]; [of_Z 1; cero]]
   = true /\
   finita [[cero; of_Z 1]; [of_Z 1; cero]] = true /\
   0 <= 1 < len DistanceFacts.dos_ciudades) /\
  exists r nombres,
    NearestNeighbor.vecino_mas_cercano DistanceFacts.dos_ciudades
      [[cero; of_Z 1]; [of_Z 1; cero]] 1 cero cero = Ok r /\
    obtener_ruta_legible (NearestNeighbor.ciclo r) DistanceFacts.dos_ciudades
    = Ok nombres /\
    Permutation nombres (map nombre DistanceFacts.dos_ciudades).
Proof.
  assert (H1 : 0 <= 1 < len DistanceFacts.dos_ciudades)
    by (change (len DistanceFacts.dos_ciudades) with 2; lia).
  split.
  - split; [reflexivity|]. split; [reflexivity|exact H1].
  - apply ruta_legible_vecino_mas_cercano; [reflexivity|reflexivity|exact H1].
Defined.

End RutaExtra.

(** ** The whole comparison on one city *)

Module ComparadorExtra.
Import Comparador.

(** X17. With a single city and a zero distance to itself both solvers
    return the cycle [[0]] with length [0.0], and comparing them raises
    [ZeroDivisionError]: the gap divides by the optimal length. *)
Theorem comparar_metodos_una_ciudad {C : Type} (c : C) (x : float)
    (t0 t1 t2 t3 : float) :
  eqb x cero = true ->
  exists re rn,
    ExhaustiveSearch.busqueda_exhaustiva [c] [[x]] t0 t1 = Ok re /\
    NearestNeighbor.vecino_mas_cercano [c] [[x]] 0 t2 t3 = Ok rn /\
    ExhaustiveSearch.ciclo_optimo re = Some [0] /\
    NearestNeighbor.ciclo rn = [0] /\
    ExhaustiveSearch.longitud_optima re = cero /\
    NearestNeighbor.longitud rn = cero /\
    comparar_metodos re rn [c] = Raise ZeroDivisionError.
Proof.
  intros Hx. destruct x as [s|s| |s mx ex]; try destruct s; try discriminate;
    (eexists _, _; split; [reflexivity|]; split; [reflexivity|];
     repeat split; reflexivity).
Qed.

Lemma comparar_metodos_una_ciudad_witness :
  eqb cero cero = true /\
  exists re rn,
    ExhaustiveSearch.busqueda_exhaustiva [tt] [[cero]] cero cero = Ok re /\
    NearestNeighbor.vecino_mas_cercano [tt] [[cero]] 0 cero cero = Ok rn /\
    ExhaustiveSearch.ciclo_optimo re = Some [0] /\
    NearestNeighbor.ciclo rn = [0] /\
    ExhaustiveSearch.longitud_optima re = cero /\
    NearestNeighbor.longitud rn = cero /\
    comparar_metodos re rn [tt] = Raise ZeroDivisionError.
Proof.
  split.
  - reflexivity.
  - apply comparar_metodos_una_ciudad. reflexivity.
Defined.

End ComparadorExtra.
